(** * Harmony Search for number pairing: a model of [main.py] and its invariants

    The development embeds the four functions of [src/main.py]
    ([calculate_fitness], [generate_random_harmony], [apply_pitch_adjustment]
    and [harmony_search_pairing]) and proves the properties the specification
    states about them.

    Modelling decisions.
    - Python numbers are rationals ([Q]).  Python's floats are idealised as
      exact rationals; the only non-finite value the program can build from
      finite numbers is [float('inf')], the constructor [PInf] of [num].
    - Python's [random] module is a tape of numbers read through a cursor:
      each call of a primitive ([_randbelow], [random]) reads one cell, and
      every outcome the primitive can deliver is delivered by some cell.
      Theorems quantify over all tapes and so over all runs.
    - Exceptions are results ([Raise]); [print] appends to [stdout].
    - Lists are values.  The program mutates fresh copies only
      ([numbers[:]] in [generate_random_harmony], [base_harmony[:]] in the
      loop), so no list stored in the harmony memory is aliased by a list
      that is mutated later, and [numbers] is never modified.
    - The script at the end of the file (the [__main__] block) is [main];
      the lines it prints itself wrap those of the search ([Inner]).
    - The list [history] of the world is the one component without a
      counterpart in the source: [observe] records the harmony memory at the
      two program points the invariants speak about (after the initial sort,
      and after the update of each improvisation). *)

From Stdlib Require Import QArith Qabs Lqa.
From stdpp Require Import base list sorting.

Local Open Scope Q_scope.

(** ** Numbers *)

(** A Python number as the program can compute it: a finite value or
    [float('inf')]. *)
Inductive num : Type :=
  | Fin (q : Q)
  | PInf.

(** [a + b] on Python numbers; [inf + x = x + inf = inf]. *)
Definition num_add (a b : num) : num :=
  match a, b with
  | Fin x, Fin y => Fin (x + y)
  | _, _ => PInf
  end.

(** [a < b] on Python numbers. *)
Definition num_ltb (a b : num) : bool :=
  match a, b with
  | Fin x, Fin y => negb (Qle_bool y x)
  | Fin _, PInf => true
  | PInf, _ => false
  end.

(** [a <= b], the order the sortedness statements use. *)
Definition num_le (a b : num) : Prop :=
  match a, b with
  | Fin x, Fin y => x <= y
  | _, PInf => True
  | PInf, Fin _ => False
  end.

(** ** Lists as Python lists *)

(** [l[i]] where the source has established [i < len(l)]. *)
Definition item (l : list Q) (i : nat) : Q := nth i l 0.

(** ** calculate_fitness (main.py, lines 5-29) *)

(** One round of the [for i in range(num_pairs)] loop, lines 20-27. *)
Definition fitness_step (harmony : list Q) (target_average : Q)
    (total_deviation : num) (i : nat) : num :=
  let idx1 := (2 * i)%nat in
  let idx2 := (2 * i + 1)%nat in
  if (idx1 <? length harmony)%nat && (idx2 <? length harmony)%nat then
    let pair_sum := item harmony idx1 + item harmony idx2 in
    num_add total_deviation (Fin (Qabs (pair_sum - target_average)))
  else
    (* float('inf') / num_pairs, with num_pairs >= 1 inside the loop *)
    num_add total_deviation PInf.

Definition calculate_fitness (harmony numbers : list Q) (target_average : Q)
    : num :=
  match harmony with
  | [] => PInf
  | _ :: _ =>
      let num_pairs := (length numbers / 2)%nat in
      fold_left (fitness_step harmony target_average) (seq 0 num_pairs) (Fin 0)
  end.

(** The sum the specification describes: over the pairs of indices
    (0,1), (2,3), ... in this order, of
    [abs(harmony[2i] + harmony[2i+1] - t)]. *)
Definition pair_deviation (harmony : list Q) (t : Q) (i : nat) : Q :=
  Qabs (item harmony (2 * i) + item harmony (2 * i + 1) - t).

Definition sum_pair_deviations (harmony : list Q) (t : Q) (pairs : nat) : Q :=
  fold_left (fun acc i => acc + pair_deviation harmony t i) (seq 0 pairs) 0.

(** The same sum by recursion on the harmony, two elements at a time. *)
Fixpoint pairwise_deviation (harmony : list Q) (t : Q) : Q :=
  match harmony with
  | a :: b :: rest => Qabs (a + b - t) + pairwise_deviation rest t
  | _ => 0
  end.

(** ** The world: random source, standard output, observation log *)

Inductive exception : Type :=
  | IndexError
  | ZeroDivisionError
  | ValueError.

Inductive result (A : Type) : Type :=
  | Ok (a : A)
  | Raise (e : exception).
Arguments Ok {A} a.
Arguments Raise {A} e.

(** A record of the harmony memory: the dict
    [{'harmony': harmony, 'fitness': fitness}]. *)
Record record : Type := Rec { harmony : list Q; fitness : num }.

(** One entry of [best_pairs] (line 147). *)
Record pair_info : Type := PairInfo { pi_pair : Q * Q; pi_sum : Q; pi_diff : Q }.

(** The calls of [print], by source line. *)
Inductive line : Type :=
  | PrintOddError                                     (* line 69 *)
  | PrintEmptyError                                   (* line 72 *)
  | PrintHeader (n num_pairs : nat) (total_sum target_average : Q) (* 78 *)
  | PrintInitialBest (f : num)                        (* line 90 *)
  | PrintProgress (iteration ni : nat) (f : num)      (* line 130 *)
  | PrintFinished (ni : nat)                          (* line 135 *)
  | PrintBestFitness (f : num)                        (* line 136 *)
  | PrintTarget (target_average : Q)                  (* line 149 *)
  | PrintPairsHeader                                  (* line 150 *)
  | PrintPair (p : pair_info).                        (* line 152 *)

Record world : Type := World {
  tape : nat -> N;               (* the random source *)
  cursor : nat;                  (* cells read so far *)
  stdout : list line;            (* printed lines, oldest first *)
  history : list (list record)   (* observed harmony memories, oldest first *)
}.

(** Computations that read the random source, print, and may raise. *)
Definition M (A : Type) : Type := world -> result A * world.

#[export] Instance M_ret : MRet M := fun A a w => (Ok a, w).

#[export] Instance M_bind : MBind M := fun A B f m w =>
  match m w with
  | (Ok a, w') => f a w'
  | (Raise e, w') => (Raise e, w')
  end.

Definition raise {A : Type} (e : exception) : M A := fun w => (Raise e, w).

Definition print (l : line) : M unit := fun w =>
  (Ok tt, World (tape w) (cursor w) (stdout w ++ [l]) (history w)).

(** Records the harmony memory in the observation log. *)
Definition observe (hm : list record) : M unit := fun w =>
  (Ok tt, World (tape w) (cursor w) (stdout w) (history w ++ [hm])).

Definition next_cell : M N := fun w =>
  (Ok (tape w (cursor w)), World (tape w) (S (cursor w)) (stdout w) (history w)).

(** [l[i]] for [0 <= i]; IndexError out of range. *)
Definition getitem {A : Type} (l : list A) (i : nat) : M A :=
  match l !! i with
  | Some a => mret a
  | None => raise IndexError
  end.

(** [l[-1]]; IndexError on the empty list. *)
Definition getlast {A : Type} (l : list A) : M A :=
  match last l with
  | Some a => mret a
  | None => raise IndexError
  end.

(** ** The primitives of Python's [random] *)

(** [random._randbelow(n)], called with [n > 0]: uniform in [0, n). *)
Definition randbelow (n : nat) : M nat :=
  c ← next_cell; mret (N.to_nat (c mod N.of_nat n)).

(** [random.random()]: a multiple of 2^-53 in [0, 1). *)
Definition random : M Q :=
  c ← next_cell; mret (Z.of_N (c mod 2 ^ 53) # 2 ^ 53).

(** [random.randint(a, b)]: ValueError on an empty range. *)
Definition randint (a b : Z) : M Z :=
  if (b <? a)%Z then raise ValueError
  else j ← randbelow (Z.to_nat (b - a + 1)); mret (a + Z.of_nat j)%Z.

(** [x[i], x[j] = x[j], x[i]]: both items are read, then [x[i]] and [x[j]]
    are assigned in this order. *)
Definition swap_items (x : list Q) (i j : nat) : M (list Q) :=
  a ← getitem x j;
  b ← getitem x i;
  mret (<[j := b]> (<[i := a]> x)).

(** [random.shuffle(x)]:
    [for i in reversed(range(1, len(x))): j = randbelow(i + 1); x[i], x[j] = x[j], x[i]]. *)
Fixpoint shuffle_loop (i : nat) (x : list Q) : M (list Q) :=
  match i with
  | O => mret x
  | S i' =>
      j ← randbelow (i + 1);
      x' ← swap_items x i j;
      shuffle_loop i' x'
  end.

Definition shuffle (x : list Q) : M (list Q) :=
  shuffle_loop (length x - 1) x.

(** [random.sample(range(n), 2)]: two indices drawn without replacement
    from the pool [0 .. n-1]; ValueError when the pool has fewer than two.
    The first draw takes [pool[j1]] and moves the last item of the pool into
    its place, the second draws among the remaining [n - 1]. *)
Definition sample2 (n : nat) : M (nat * nat) :=
  if (n <? 2)%nat then raise ValueError
  else
    j1 ← randbelow n;
    j2 ← randbelow (n - 1);
    mret (j1, if (j2 =? j1)%nat then (n - 1)%nat else j2).

(** ** generate_random_harmony (lines 33-37) *)

Definition generate_random_harmony (numbers : list Q) : M (list Q) :=
  shuffle numbers.

(** ** apply_pitch_adjustment (lines 39-49) *)

Definition apply_pitch_adjustment (harmony : list Q) : M (list Q) :=
  if (length harmony <? 2)%nat then mret harmony
  else
    '(idx1, idx2) ← sample2 (length harmony);
    swap_items harmony idx1 idx2.

(** ** harmony_search_pairing (lines 52-155) *)

(** [a < b] on finite numbers. *)
Definition Qltb (a b : Q) : bool := negb (Qle_bool b a).

(** [sum(numbers)]: from 0, left to right. *)
Definition pysum (numbers : list Q) : Q := fold_left Qplus numbers 0.

(** [harmony_memory.sort(key=lambda x: x['fitness'])]: Python's sort is
    stable and compares keys with [<] only; the stable sort of a list is
    unique, so insertion from the right computes it. *)
Fixpoint insert_by_fitness (r : record) (l : list record) : list record :=
  match l with
  | [] => [r]
  | x :: l' =>
      if num_ltb (fitness x) (fitness r) then x :: insert_by_fitness r l'
      else r :: l
  end.

Definition sort_by_fitness (l : list record) : list record :=
  foldr insert_by_fitness [] l.

(** Lines 82-85: [for _ in range(hms)]. *)
Fixpoint fill_memory (numbers : list Q) (target_average : Q) (k : nat)
    (harmony_memory : list record) : M (list record) :=
  match k with
  | O => mret harmony_memory
  | S k' =>
      harmony ← generate_random_harmony numbers;
      let fitness := calculate_fitness harmony numbers target_average in
      fill_memory numbers target_average k' (harmony_memory ++ [Rec harmony fitness])
  end.

(** Lines 94-113: the new harmony of one improvisation. *)
Definition improvise (numbers : list Q) (hms : nat) (hmcr par : Q)
    (harmony_memory : list record) : M (list Q) :=
  rand_hmcr ← random;
  if Qltb rand_hmcr hmcr then
    base_harmony_idx ← randint 0 (Z.of_nat hms - 1);
    base ← getitem harmony_memory (Z.to_nat base_harmony_idx);
    let new_harmony := harmony base in
    rand_par ← random;
    if Qltb rand_par par then apply_pitch_adjustment new_harmony
    else mret new_harmony
  else generate_random_harmony numbers.

(** Lines 120-126: replacement of the worst record. *)
Definition update_memory (harmony_memory : list record)
    (new_harmony : list Q) (new_fitness : num) : M (list record) :=
  worst ← getlast harmony_memory;
  if num_ltb new_fitness (fitness worst) then
    mret (sort_by_fitness
            (<[(length harmony_memory - 1)%nat := Rec new_harmony new_fitness]>
               harmony_memory))
  else mret harmony_memory.

(** Lines 129-130: the progress report. *)
Definition report_progress (harmony_memory : list record)
    (iteration ni : nat) : M unit :=
  if (ni / 10 =? 0)%nat then raise ZeroDivisionError
  else if ((iteration + 1) mod (ni / 10) =? 0)%nat then
    best ← getitem harmony_memory 0;
    print (PrintProgress (iteration + 1) ni (fitness best))
  else mret tt.

(** Lines 93-130: the body of [for iteration in range(ni)]. *)
Definition improvisation (numbers : list Q) (hms : nat) (hmcr par : Q)
    (ni : nat) (target_average : Q) (harmony_memory : list record)
    (iteration : nat) : M (list record) :=
  new_harmony ← improvise numbers hms hmcr par harmony_memory;
  let new_fitness := calculate_fitness new_harmony numbers target_average in
  harmony_memory ← update_memory harmony_memory new_harmony new_fitness;
  observe harmony_memory;;
  report_progress harmony_memory iteration ni;;
  mret harmony_memory.

Fixpoint improvisation_loop (numbers : list Q) (hms : nat) (hmcr par : Q)
    (ni : nat) (target_average : Q) (iterations : list nat)
    (harmony_memory : list record) : M (list record) :=
  match iterations with
  | [] => mret harmony_memory
  | iteration :: rest =>
      harmony_memory ←
        improvisation numbers hms hmcr par ni target_average harmony_memory iteration;
      improvisation_loop numbers hms hmcr par ni target_average rest harmony_memory
  end.

(** Lines 139-147: decoding of the best harmony into pairs. *)
Fixpoint decode_pairs (final_harmony : list Q) (target_average : Q)
    (indices : list nat) (best_pairs : list pair_info) : M (list pair_info) :=
  match indices with
  | [] => mret best_pairs
  | i :: rest =>
      a ← getitem final_harmony (2 * i);
      b ← getitem final_harmony (2 * i + 1);
      let pair_sum := pysum [a; b] in
      let diff := Qabs (pair_sum - target_average) in
      decode_pairs final_harmony target_average rest
        (best_pairs ++ [PairInfo (a, b) pair_sum diff])
  end.

(** Lines 151-152. *)
Fixpoint print_pairs (best_pairs : list pair_info) : M unit :=
  match best_pairs with
  | [] => mret tt
  | p_info :: rest => print (PrintPair p_info);; print_pairs rest
  end.

(** The target average of a run (lines 75-77). *)
Definition target_average_of (numbers : list Q) : Q :=
  pysum numbers / inject_Z (Z.of_nat (length numbers / 2)).

Definition harmony_search_pairing (numbers : list Q) (hms : nat)
    (hmcr par : Q) (ni : nat) : M (option (list Q) * num) :=
  let n := length numbers in
  if negb (n mod 2 =? 0)%nat then
    print PrintOddError;; mret (None, PInf)
  else if (n =? 0)%nat then
    print PrintEmptyError;; mret (Some [], Fin 0)
  else
    let total_sum := pysum numbers in
    let num_pairs := (n / 2)%nat in
    let target_average := total_sum / inject_Z (Z.of_nat num_pairs) in
    print (PrintHeader n num_pairs total_sum target_average);;
    harmony_memory ← fill_memory numbers target_average hms [];
    let harmony_memory := sort_by_fitness harmony_memory in
    observe harmony_memory;;
    best ← getitem harmony_memory 0;
    print (PrintInitialBest (fitness best));;
    harmony_memory ←
      improvisation_loop numbers hms hmcr par ni target_average (seq 0 ni)
        harmony_memory;
    best_solution ← getitem harmony_memory 0;
    print (PrintFinished ni);;
    print (PrintBestFitness (fitness best_solution));;
    let final_harmony := harmony best_solution in
    best_pairs ← decode_pairs final_harmony target_average (seq 0 num_pairs) [];
    print (PrintTarget target_average);;
    print PrintPairsHeader;;
    print_pairs best_pairs;;
    mret (Some (harmony best_solution), fitness best_solution).

(** ** Runs and the predicates of the specification *)

(** A run starts with nothing printed and nothing observed. *)
Definition initial_world (tape : nat -> N) : world := World tape 0 [] [].

(** The printed lines, the observed memories and the result of the run of
    [harmony_search_pairing] on a tape. *)
Definition run (numbers : list Q) (hms : nat) (hmcr par : Q) (ni : nat)
    (tape : nat -> N) : result (option (list Q) * num) * world :=
  harmony_search_pairing numbers hms hmcr par ni (initial_world tape).

(** [w'] differs from [w] by cells read from the tape only. *)
Definition rng_only (w w' : world) : Prop :=
  tape w' = tape w /\ stdout w' = stdout w /\ history w' = history w.

(** Weakest precondition of a computation for a postcondition on normal
    return and one on a raised exception. *)
Definition wp {A : Type} (m : M A) (w : world)
    (Qn : A -> world -> Prop) (Qe : exception -> world -> Prop) : Prop :=
  match m w with
  | (Ok a, w') => Qn a w'
  | (Raise e, w') => Qe e w'
  end.

(** [m] returns normally from [w], with a value in [P], having only read
    the tape. *)
Definition returns {A : Type} (m : M A) (w : world) (P : A -> Prop) : Prop :=
  wp m w (fun a w' => rng_only w w' /\ P a) (fun _ _ => False).

(** Non-decreasing by fitness from first to last. *)
Definition sorted_by_fitness (hm : list record) : Prop :=
  forall (i j : nat) (ri rj : record),
    (i <= j)%nat -> hm !! i = Some ri -> hm !! j = Some rj ->
    num_le (fitness ri) (fitness rj).

Definition fitness_le (a b : record) : Prop := num_le (fitness a) (fitness b).

(** The stored fitness is the fitness of the stored harmony. *)
Definition self_consistent (numbers : list Q) (t : Q) (r : record) : Prop :=
  fitness r = calculate_fitness (harmony r) numbers t.

(** What every record of the memory satisfies during a run. *)
Definition good_record (numbers : list Q) (t : Q) (r : record) : Prop :=
  harmony r ≡ₚ numbers /\ self_consistent numbers t r.

Definition good_memory (numbers : list Q) (t : Q) (hms : nat)
    (hm : list record) : Prop :=
  length hm = hms /\ StronglySorted fitness_le hm /\
  Forall (good_record numbers t) hm.

(** [harmony_memory[0]['fitness']] where the memory is not empty. *)
Definition best_fitness (hm : list record) : option num :=
  fitness <$> head hm.

(** The best fitness never grows from one observed memory to the next. *)
Definition best_never_worse (hist : list (list record)) : Prop :=
  forall (k : nat) (before after : list record),
    hist !! k = Some before -> hist !! S k = Some after ->
    exists f f' : num,
      best_fitness before = Some f /\ best_fitness after = Some f' /\
      num_le f' f.

#[export] Instance Q_eq_dec : EqDecision Q.
Proof. solve_decision. Defined.

(** The positions at which two lists of one length differ. *)
Definition differing_positions (a b : list Q) : list nat :=
  filter (fun k => a !! k <> b !! k) (seq 0 (length a)).

(** The tape whose first cells are [cells], 0 afterwards. *)
Definition tape_of (cells : list N) : nat -> N := fun i => nth i cells 0%N.

(** The invariant of the observation log of a run. *)
Definition history_invariant (numbers : list Q) (t : Q) (hms : nat)
    (hist : list (list record)) : Prop :=
  Forall (good_memory numbers t hms) hist /\ best_never_worse hist.

(** The invariant of the improvisation loop: the current memory is the one
    observed last. *)
Definition loop_invariant (numbers : list Q) (t : Q) (hms : nat)
    (hm : list record) (w : world) : Prop :=
  good_memory numbers t hms hm /\ last (history w) = Some hm /\
  history_invariant numbers t hms (history w).

(** A tape and the parameters of a small run, for concrete instances. *)
Definition sample_tape : nat -> N :=
  tape_of [3; 1; 4; 1; 5; 9; 2; 6; 5; 3; 5; 8; 9; 7; 9; 3; 2; 3; 8; 4; 6; 2;
           6; 4; 3; 3; 8; 3; 2; 7; 9; 5; 0; 2; 8; 8; 4; 1; 9; 7; 1; 6; 9; 3;
           9; 9; 3; 7; 5; 1; 0]%N.

(** ** Definitions for the further properties *)

(** The world after [k] more cells of the tape have been read. *)
Definition advance (w : world) (k : nat) : world :=
  World (tape w) (k + cursor w) (stdout w) (history w).


(** The harmony cut two by two, each pair with its sum and its difference
    from the target as lines 144-147 compute them. *)
Fixpoint pairs_of (h : list Q) (t : Q) : list pair_info :=
  match h with
  | a :: b :: rest =>
      PairInfo (a, b) (pysum [a; b]) (Qabs (pysum [a; b] - t)) :: pairs_of rest t
  | _ => []
  end.

(** The two numbers of a decoded pair, in order. *)
Definition pair_items (p : pair_info) : list Q := [(pi_pair p).1; (pi_pair p).2].

(** One round of the loop between two observed memories: [after] is what
    [update_memory] returns on [before] for the harmony that [improvise]
    returns on [before]. *)
Definition memory_step (numbers : list Q) (t : Q) (hms : nat) (hmcr par : Q)
    (before after : list record) : Prop :=
  exists (h : list Q) (w0 w1 w2 : world),
    improvise numbers hms hmcr par before w0 = (Ok h, w1) /\
    update_memory before h (calculate_fitness h numbers t) w1 = (Ok after, w2).

(** Every two consecutive observed memories are related by [R]. *)
Definition history_steps (R : list record -> list record -> Prop)
    (hist : list (list record)) : Prop :=
  forall (k : nat) (before after : list record),
    hist !! k = Some before -> hist !! S k = Some after -> R before after.

(** A line of the progress report (line 130). *)
Definition is_progress (l : line) : Prop :=
  exists (iteration ni : nat) (f : num), l = PrintProgress iteration ni f.

(** ** The driver (main.py, lines 158-179) *)







(** * Proofs *)

(** ** The order on numbers *)

Lemma num_le_refl (a : num) : num_le a a.
Proof. destruct a; simpl; [apply Qle_refl | exact I]. Qed.

Lemma num_le_trans (a b c : num) : num_le a b -> num_le b c -> num_le a c.
Proof.
  destruct a, b, c; simpl; try tauto. apply Qle_trans.
Qed.

Lemma num_ltb_true (a b : num) : num_ltb a b = true -> num_le a b.
Proof.
  destruct a as [x|], b as [y|]; simpl; try done.
  intros H. apply negb_true_iff in H.
  destruct (Qlt_le_dec x y) as [Hlt|Hle]; [by apply Qlt_le_weak |].
  apply Qle_bool_iff in Hle. congruence.
Qed.

Lemma num_ltb_false (a b : num) : num_ltb a b = false -> num_le b a.
Proof.
  destruct a as [x|], b as [y|]; simpl; try done.
  intros H. apply negb_false_iff in H. by apply Qle_bool_iff.
Qed.

(** [a < b] excludes [b <= a]: the test of line 122 is strict. *)
Lemma num_ltb_strict (a b : num) : num_ltb a b = true -> ~ num_le b a.
Proof.
  destruct a as [x|], b as [y|]; simpl; try done.
  - intros H Hle. apply negb_true_iff in H. apply Qle_bool_iff in Hle. congruence.
  - intros _ [].
Qed.

#[export] Instance fitness_le_refl : Reflexive fitness_le.
Proof. intros r. apply num_le_refl. Qed.

#[export] Instance fitness_le_trans : Transitive fitness_le.
Proof. intros a b c. apply num_le_trans. Qed.

(** ** calculate_fitness *)

Lemma fold_fitness_step (harmony : list Q) (t : Q) (indices : list nat) (acc : Q) :
  Forall (fun i => (2 * i + 1 < length harmony)%nat) indices ->
  fold_left (fitness_step harmony t) indices (Fin acc) =
  Fin (fold_left (fun acc i => acc + pair_deviation harmony t i) indices acc).
Proof.
  revert acc. induction indices as [|i indices IH]; intros acc Hin; [done |].
  apply Forall_cons in Hin as [Hi Hin]. simpl.
  unfold fitness_step at 2.
  replace (2 * i <? length harmony)%nat with true
    by (symmetry; apply Nat.ltb_lt; lia).
  replace (2 * i + 1 <? length harmony)%nat with true
    by (symmetry; apply Nat.ltb_lt; lia).
  simpl. by rewrite IH.
Qed.

Lemma pair_indices_in_range (n : nat) :
  Forall (fun i => (2 * i + 1 < n)%nat) (seq 0 (n / 2)).
Proof.
  apply Forall_forall. intros i Hi. apply elem_of_seq in Hi.
  pose proof (Nat.div_mod_eq n 2). lia.
Qed.

(** On a harmony as long as [numbers] the defensive branch of line 27 is
    never taken. *)
Lemma calculate_fitness_full (harmony numbers : list Q) (t : Q) :
  length harmony = length numbers -> harmony <> [] ->
  calculate_fitness harmony numbers t =
  Fin (sum_pair_deviations harmony t (length numbers / 2)).
Proof.
  intros Hlen Hne. destruct harmony as [|a harmony']; [done |].
  unfold calculate_fitness, sum_pair_deviations.
  apply fold_fitness_step. rewrite Hlen. apply pair_indices_in_range.
Qed.

(** The sum over index pairs is the sum over the harmony read two elements
    at a time. *)
Lemma fold_deviation_proper (h : list Q) (t : Q) (l : list nat) (acc acc' : Q) :
  acc == acc' ->
  fold_left (fun acc i => acc + pair_deviation h t i) l acc ==
  fold_left (fun acc i => acc + pair_deviation h t i) l acc'.
Proof.
  revert acc acc'. induction l as [|i l IH]; intros acc acc' Heq; [done |].
  simpl. apply IH. by rewrite Heq.
Qed.

Lemma fold_deviation_acc (h : list Q) (t : Q) (l : list nat) (x acc : Q) :
  fold_left (fun acc i => acc + pair_deviation h t i) l (x + acc) ==
  x + fold_left (fun acc i => acc + pair_deviation h t i) l acc.
Proof.
  revert acc. induction l as [|i l IH]; intros acc; [done |].
  simpl. rewrite <- IH. apply fold_deviation_proper. ring.
Qed.

Lemma pair_deviation_shift (a b : Q) (rest : list Q) (t : Q) (i : nat) :
  pair_deviation (a :: b :: rest) t (S i) = pair_deviation rest t i.
Proof.
  unfold pair_deviation, item.
  replace (2 * S i)%nat with (S (S (2 * i))) by lia.
  replace (S (S (2 * i)) + 1)%nat with (S (S (2 * i + 1))) by lia.
  done.
Qed.

Lemma fold_deviation_shift (a b : Q) (rest : list Q) (t : Q) (k j : nat) (acc : Q) :
  fold_left (fun acc i => acc + pair_deviation (a :: b :: rest) t i) (seq (S j) k) acc =
  fold_left (fun acc i => acc + pair_deviation rest t i) (seq j k) acc.
Proof.
  revert j acc. induction k as [|k IH]; intros j acc; [done |].
  simpl. rewrite pair_deviation_shift. apply IH.
Qed.

Lemma sum_pair_deviations_pairwise (h : list Q) (t : Q) :
  sum_pair_deviations h t (length h / 2) == pairwise_deviation h t.
Proof.
  remember (length h) as n eqn:Hn.
  revert h Hn. induction (lt_wf n) as [n _ IH]. intros h ->.
  destruct h as [|a [|b rest]]; [done | done |].
  replace (length (a :: b :: rest) / 2)%nat with (S (length rest / 2)).
  2:{ simpl length. change (S (S (length rest))) with (1 * 2 + length rest)%nat.
      by rewrite Nat.div_add_l. }
  assert (sum_pair_deviations rest t (length rest / 2) == pairwise_deviation rest t)
    as Hrest by (apply (IH (length rest)); [simpl; lia | done]).
  revert Hrest. generalize (length rest / 2)%nat as k. intros k Hrest.
  unfold sum_pair_deviations in *. rewrite <- cons_seq. cbn [fold_left].
  rewrite fold_deviation_shift.
  transitivity
    (fold_left (fun acc i => acc + pair_deviation rest t i) (seq 0 k)
       (pair_deviation (a :: b :: rest) t 0 + 0)).
  { apply fold_deviation_proper. ring. }
  rewrite fold_deviation_acc, Hrest.
  unfold pair_deviation, item. simpl. ring.
Qed.

(** ** Rules of the weakest precondition *)

Lemma rng_only_refl (w : world) : rng_only w w.
Proof. by unfold rng_only. Qed.

Lemma rng_only_trans (w1 w2 w3 : world) :
  rng_only w1 w2 -> rng_only w2 w3 -> rng_only w1 w3.
Proof. unfold rng_only. intros (-> & -> & ->) (-> & -> & ->). done. Qed.

Lemma wp_ret {A : Type} (a : A) (w : world) Qn Qe :
  Qn a w -> wp (mret a) w Qn Qe.
Proof. done. Qed.

Lemma wp_raise {A : Type} (e : exception) (w : world)
    (Qn : A -> world -> Prop) Qe :
  Qe e w -> wp (raise e) w Qn Qe.
Proof. done. Qed.

Lemma wp_bind {A B : Type} (m : M A) (f : A -> M B) (w : world) Qn Qe :
  wp m w (fun a w' => wp (f a) w' Qn Qe) Qe -> wp (m ≫= f) w Qn Qe.
Proof.
  unfold wp, mbind, M_bind. by destruct (m w) as [[a|e] w'].
Qed.

Lemma wp_mono {A : Type} (m : M A) (w : world)
    (Qn Qn' : A -> world -> Prop) (Qe Qe' : exception -> world -> Prop) :
  wp m w Qn Qe ->
  (forall a w', Qn a w' -> Qn' a w') ->
  (forall e w', Qe e w' -> Qe' e w') ->
  wp m w Qn' Qe'.
Proof.
  unfold wp. destruct (m w) as [[a|e] w']; eauto.
Qed.

Lemma wp_print (l : line) (w : world) Qn Qe :
  Qn tt (World (tape w) (cursor w) (stdout w ++ [l]) (history w)) ->
  wp (print l) w Qn Qe.
Proof. done. Qed.

Lemma wp_observe (hm : list record) (w : world) Qn Qe :
  Qn tt (World (tape w) (cursor w) (stdout w) (history w ++ [hm])) ->
  wp (observe hm) w Qn Qe.
Proof. done. Qed.

Lemma wp_getitem {A : Type} (l : list A) (i : nat) (a : A) (w : world) Qn Qe :
  l !! i = Some a -> Qn a w -> wp (getitem l i) w Qn Qe.
Proof. intros Hi HQ. unfold getitem. by rewrite Hi. Qed.

(** A computation that returns normally can be run first. *)
Lemma wp_returns {A B : Type} (m : M A) (f : A -> M B) (w : world)
    (P : A -> Prop) Qn Qe :
  returns m w P ->
  (forall a w', rng_only w w' -> P a -> wp (f a) w' Qn Qe) ->
  wp (m ≫= f) w Qn Qe.
Proof.
  intros Hm Hf. apply wp_bind. eapply wp_mono; [exact Hm | | done].
  intros a w' [Hw HP]. by apply Hf.
Qed.

Lemma returns_ret {A : Type} (a : A) (w : world) (P : A -> Prop) :
  P a -> returns (mret a) w P.
Proof. intros HP. split; [apply rng_only_refl | done]. Qed.

Lemma returns_bind {A B : Type} (m : M A) (f : A -> M B) (w : world)
    (P : A -> Prop) (R : B -> Prop) :
  returns m w P ->
  (forall a w', P a -> returns (f a) w' R) ->
  returns (m ≫= f) w R.
Proof.
  intros Hm Hf. eapply wp_returns; [exact Hm |].
  intros a w' Hw HP. eapply wp_mono; [by apply Hf | | done].
  intros b w'' [Hw' HR]. split; [by eapply rng_only_trans | done].
Qed.

Lemma returns_mono {A : Type} (m : M A) (w : world) (P P' : A -> Prop) :
  returns m w P -> (forall a, P a -> P' a) -> returns m w P'.
Proof.
  intros Hm HP. eapply wp_mono; [exact Hm | | done].
  intros a w' [Hw Ha]. split; [done | by apply HP].
Qed.

(** What [returns] says about the pair a computation evaluates to. *)
Lemma returns_inv {A : Type} (m : M A) (w : world) (P : A -> Prop) :
  returns m w P ->
  exists a w', m w = (Ok a, w') /\ rng_only w w' /\ P a.
Proof.
  unfold returns, wp. destruct (m w) as [[a|e] w']; [| done].
  intros [Hw HP]. by exists a, w'.
Qed.

(** ** The primitives of [random] *)

Lemma returns_next_cell (w : world) : returns next_cell w (fun _ => True).
Proof. done. Qed.

Lemma returns_randbelow (n : nat) (w : world) :
  (0 < n)%nat -> returns (randbelow n) w (fun j => (j < n)%nat).
Proof.
  intros Hn. eapply returns_bind; [apply returns_next_cell |].
  intros c w' _. apply returns_ret. cbv beta.
  assert (c mod N.of_nat n < N.of_nat n)%N by (apply N.mod_upper_bound; lia).
  lia.
Qed.

Lemma returns_random (w : world) : returns random w (fun _ => True).
Proof. done. Qed.

Lemma returns_randint (a b : Z) (w : world) :
  (a <= b)%Z -> returns (randint a b) w (fun z => (a <= z <= b)%Z).
Proof.
  intros Hab. unfold randint.
  replace (b <? a)%Z with false by (symmetry; apply Z.ltb_ge; lia).
  eapply returns_bind; [apply (returns_randbelow (Z.to_nat (b - a + 1))); lia |].
  intros j w' Hj. apply returns_ret. simpl in Hj. lia.
Qed.

Lemma returns_getitem {A : Type} (l : list A) (i : nat) (a : A) (w : world) :
  l !! i = Some a -> returns (getitem l i) w (fun x => x = a).
Proof. intros Hi. unfold getitem. rewrite Hi. by apply returns_ret. Qed.

(** The swap of two items in range returns, and what it returns. *)
Lemma returns_swap_items (x : list Q) (i j : nat) (w : world) :
  (i < length x)%nat -> (j < length x)%nat ->
  returns (swap_items x i j) w (fun x' =>
    exists a b : Q,
      x !! i = Some b /\ x !! j = Some a /\ x' = <[j := b]> (<[i := a]> x)).
Proof.
  intros Hi Hj.
  destruct (lookup_lt_is_Some_2 x i Hi) as [b Hb].
  destruct (lookup_lt_is_Some_2 x j Hj) as [a Ha].
  unfold swap_items.
  eapply returns_bind; [by apply returns_getitem |]. intros ? w1 ->.
  eapply returns_bind; [by apply returns_getitem |]. intros ? w2 ->.
  apply returns_ret. by exists a, b.
Qed.

Lemma swap_permutation (x : list Q) (i j : nat) (a b : Q) :
  x !! i = Some b -> x !! j = Some a -> <[j := b]> (<[i := a]> x) ≡ₚ x.
Proof. intros Hb Ha. by apply Permutation_insert_swap. Qed.

Lemma returns_shuffle_loop (i : nat) (x : list Q) (w : world) :
  (i < length x)%nat -> returns (shuffle_loop i x) w (fun x' => x' ≡ₚ x).
Proof.
  revert x w. induction i as [|i IH]; intros x w Hi.
  { by apply returns_ret. }
  cbn [shuffle_loop].
  eapply returns_bind; [apply returns_randbelow; lia |]. intros j w1 Hj.
  cbv beta in Hj.
  eapply returns_bind; [apply returns_swap_items; lia |].
  intros x' w2 (a & b & Hb & Ha & ->).
  pose proof (swap_permutation x (S i) j a b Hb Ha) as Hperm.
  eapply returns_mono.
  - apply IH. rewrite !length_insert. lia.
  - intros x'' Hx''. by rewrite Hx''.
Qed.

(** [random.shuffle] returns a permutation of its argument. *)
Lemma returns_shuffle (x : list Q) (w : world) :
  returns (shuffle x) w (fun x' => x' ≡ₚ x).
Proof.
  unfold shuffle. destruct x as [|a x]; [by apply returns_ret |].
  apply returns_shuffle_loop. simpl. lia.
Qed.

(** [random.sample(range(n), 2)] returns two distinct indices below [n]. *)
Lemma returns_sample2 (n : nat) (w : world) :
  (2 <= n)%nat ->
  returns (sample2 n) w (fun p => (p.1 < n)%nat /\ (p.2 < n)%nat /\ p.1 <> p.2).
Proof.
  intros Hn. unfold sample2.
  replace (n <? 2)%nat with false by (symmetry; apply Nat.ltb_ge; lia).
  eapply returns_bind; [apply returns_randbelow; lia |]. intros j1 w1 Hj1.
  eapply returns_bind; [apply returns_randbelow; lia |]. intros j2 w2 Hj2.
  apply returns_ret. cbv beta in *. simpl.
  destruct (Nat.eqb_spec j2 j1); lia.
Qed.

(** The tape model loses no behaviour of the primitives: every index below
    [n] is drawn by [_randbelow(n)] from some cell, and every pair of
    distinct indices below [n] by [sample(range(n), 2)] from some two. *)
Lemma randbelow_complete (n j : nat) (tp : nat -> N) (c : nat)
    (out : list line) (hist : list (list record)) :
  (j < n)%nat -> tp c = N.of_nat j ->
  randbelow n (World tp c out hist) = (Ok j, World tp (S c) out hist).
Proof.
  intros Hj Hc. unfold randbelow, mbind, M_bind, next_cell, mret, M_ret.
  cbn [tape cursor stdout history]. rewrite Hc.
  rewrite N.mod_small by lia. by rewrite Nat2N.id.
Qed.

Lemma sample2_complete (n a b : nat) (tp : nat -> N) (c : nat)
    (out : list line) (hist : list (list record)) :
  (a < n)%nat -> (b < n)%nat -> a <> b ->
  tp c = N.of_nat a ->
  tp (S c) = N.of_nat (if (b =? n - 1)%nat then a else b) ->
  sample2 n (World tp c out hist) = (Ok (a, b), World tp (S (S c)) out hist).
Proof.
  intros Ha Hb Hne Hc HSc. unfold sample2.
  replace (n <? 2)%nat with false by (symmetry; apply Nat.ltb_ge; lia).
  unfold mbind at 1. unfold M_bind at 1.
  rewrite (randbelow_complete n a) by done.
  unfold mbind at 1. unfold M_bind at 1.
  rewrite (randbelow_complete (n - 1) (if (b =? n - 1)%nat then a else b))
    by (done || destruct (Nat.eqb_spec b (n - 1)); lia).
  unfold mret, M_ret. do 2 f_equal.
  destruct (Nat.eqb_spec b (n - 1)) as [->|Hb'].
  - by rewrite Nat.eqb_refl.
  - destruct (Nat.eqb_spec b a); [lia | done].
Qed.

(** ** generate_random_harmony and apply_pitch_adjustment *)

Lemma returns_generate_random_harmony (numbers : list Q) (w : world) :
  returns (generate_random_harmony numbers) w (fun h => h ≡ₚ numbers).
Proof. apply returns_shuffle. Qed.

(** A swap changes no position but the two it exchanges. *)
Lemma differing_positions_swap (x : list Q) (i j : nat) (a b : Q) :
  (length (differing_positions x (<[j := b]> (<[i := a]> x))) <= 2)%nat.
Proof.
  unfold differing_positions.
  set (x' := <[j := b]> (<[i := a]> x)).
  assert (filter (fun k => x !! k <> x' !! k) (seq 0 (length x)) ⊆+ [i; j]) as Hsub.
  { apply NoDup_submseteq.
    - apply NoDup_filter, NoDup_seq.
    - intros k [Hk _]%list_elem_of_filter.
      destruct (decide (k = i)) as [->|Hi]; [by left |].
      destruct (decide (k = j)) as [->|Hj]; [by right; left |].
      exfalso. apply Hk. unfold x'.
      by rewrite !list_lookup_insert_ne. }
  apply submseteq_length in Hsub. done.
Qed.

Lemma returns_apply_pitch_adjustment (harmony : list Q) (w : world) :
  (2 <= length harmony)%nat ->
  returns (apply_pitch_adjustment harmony) w (fun h' =>
    exists (idx1 idx2 : nat) (a b : Q),
      idx1 <> idx2 /\
      harmony !! idx1 = Some b /\ harmony !! idx2 = Some a /\
      h' = <[idx2 := b]> (<[idx1 := a]> harmony)).
Proof.
  intros Hlen. unfold apply_pitch_adjustment.
  replace (length harmony <? 2)%nat with false
    by (symmetry; apply Nat.ltb_ge; lia).
  eapply returns_bind; [by apply returns_sample2 |].
  intros [idx1 idx2] w1 (H1 & H2 & Hne). simpl in H1, H2, Hne.
  eapply returns_mono; [by apply returns_swap_items |].
  intros h' (a & b & Hb & Ha & ->). by exists idx1, idx2, a, b.
Qed.

(** Whatever its length, the adjusted harmony is a permutation. *)
Lemma returns_apply_pitch_adjustment_perm (harmony : list Q) (w : world) :
  returns (apply_pitch_adjustment harmony) w (fun h' => h' ≡ₚ harmony).
Proof.
  destruct (le_lt_dec 2 (length harmony)) as [Hlen|Hlen].
  - eapply returns_mono; [by apply returns_apply_pitch_adjustment |].
    intros h' (idx1 & idx2 & a & b & _ & Hb & Ha & ->).
    by apply swap_permutation.
  - unfold apply_pitch_adjustment.
    replace (length harmony <? 2)%nat with true
      by (symmetry; apply Nat.ltb_lt; lia).
    by apply returns_ret.
Qed.

(** ** The sort of the harmony memory *)

Lemma insert_by_fitness_perm (r : record) (l : list record) :
  insert_by_fitness r l ≡ₚ r :: l.
Proof.
  induction l as [|x l IH]; [done |]. simpl.
  destruct (num_ltb (fitness x) (fitness r)); [| done].
  rewrite IH. apply Permutation_swap.
Qed.

Lemma sort_by_fitness_perm (l : list record) : sort_by_fitness l ≡ₚ l.
Proof.
  induction l as [|r l IH]; [done |]. simpl.
  by rewrite insert_by_fitness_perm, IH.
Qed.

Lemma insert_by_fitness_sorted (r : record) (l : list record) :
  StronglySorted fitness_le l -> StronglySorted fitness_le (insert_by_fitness r l).
Proof.
  induction l as [|x l IH]; intros Hl; simpl.
  { repeat constructor. }
  apply StronglySorted_inv in Hl as [Hl Hx].
  destruct (num_ltb (fitness x) (fitness r)) eqn:Hlt.
  - constructor; [by apply IH |].
    rewrite insert_by_fitness_perm. constructor; [| done].
    by apply num_ltb_true.
  - apply num_ltb_false in Hlt.
    constructor; [by constructor |].
    constructor; [done |].
    eapply Forall_impl; [exact Hx |]. intros y Hy.
    by etransitivity.
Qed.

Lemma sort_by_fitness_sorted (l : list record) :
  StronglySorted fitness_le (sort_by_fitness l).
Proof.
  induction l as [|r l IH]; simpl; [constructor |].
  by apply insert_by_fitness_sorted.
Qed.

Lemma StronglySorted_index (hm : list record) :
  StronglySorted fitness_le hm -> sorted_by_fitness hm.
Proof.
  induction 1 as [|r hm Hs IH Hr]; intros i j ri rj Hij Hi Hj.
  { by rewrite lookup_nil in Hi. }
  destruct i as [|i], j as [|j]; simpl in Hi, Hj; try lia.
  - simplify_eq. apply num_le_refl.
  - simplify_eq. by apply (Forall_lookup_1 _ _ _ _ Hr Hj).
  - eapply IH; [| done | done]. lia.
Qed.

(** The first record of a sorted memory is below every record. *)
Lemma sorted_head_least (hm : list record) (r0 r : record) :
  StronglySorted fitness_le hm -> head hm = Some r0 -> r ∈ hm ->
  fitness_le r0 r.
Proof.
  intros Hs Hhd Hin. destruct hm as [|x hm]; [done |].
  simpl in Hhd. simplify_eq.
  apply StronglySorted_inv in Hs as [_ Hx].
  apply elem_of_cons in Hin as [->|Hin]; [done |].
  by eapply Forall_forall in Hx.
Qed.

(** ** Initialisation of the harmony memory *)

Lemma good_record_generated (numbers h : list Q) (t : Q) :
  h ≡ₚ numbers -> good_record numbers t (Rec h (calculate_fitness h numbers t)).
Proof. by split. Qed.

Lemma returns_fill_memory (numbers : list Q) (t : Q) (k : nat)
    (hm : list record) (w : world) :
  Forall (good_record numbers t) hm ->
  returns (fill_memory numbers t k hm) w (fun hm' =>
    length hm' = (length hm + k)%nat /\ Forall (good_record numbers t) hm').
Proof.
  revert hm w. induction k as [|k IH]; intros hm w Hhm.
  { apply returns_ret. split; [lia | done]. }
  cbn [fill_memory].
  eapply returns_bind; [apply returns_generate_random_harmony |].
  intros h w1 Hh. cbv beta in Hh.
  eapply returns_mono.
  - apply IH. apply Forall_app. split; [done |].
    constructor; [by apply good_record_generated | constructor].
  - intros hm' [Hlen Hgood]. split; [| done].
    rewrite Hlen, length_app. simpl. lia.
Qed.

Lemma good_memory_sort (numbers : list Q) (t : Q) (hm : list record) :
  Forall (good_record numbers t) hm ->
  good_memory numbers t (length hm) (sort_by_fitness hm).
Proof.
  intros Hgood. split; [| split].
  - by rewrite sort_by_fitness_perm.
  - apply sort_by_fitness_sorted.
  - by rewrite sort_by_fitness_perm.
Qed.

(** ** One improvisation *)

Lemma returns_improvise (numbers : list Q) (t : Q) (hms : nat) (hmcr par : Q)
    (hm : list record) (w : world) :
  (1 <= hms)%nat -> good_memory numbers t hms hm ->
  returns (improvise numbers hms hmcr par hm) w (fun h => h ≡ₚ numbers).
Proof.
  intros Hhms (Hlen & _ & Hgood). unfold improvise.
  eapply returns_bind; [apply returns_random |]. intros rand_hmcr w1 _.
  destruct (Qltb rand_hmcr hmcr); [| apply returns_generate_random_harmony].
  eapply returns_bind; [apply (returns_randint 0 (Z.of_nat hms - 1)); lia |].
  intros idx w2 Hidx. cbv beta in Hidx.
  destruct (lookup_lt_is_Some_2 hm (Z.to_nat idx)) as [base Hbase]; [lia |].
  eapply returns_bind; [by apply returns_getitem |]. intros ? w3 ->.
  pose proof (Forall_lookup_1 _ _ _ _ Hgood Hbase) as [Hperm _].
  eapply returns_bind; [apply returns_random |]. intros rand_par w4 _.
  destruct (Qltb rand_par par); [| by apply returns_ret].
  eapply returns_mono; [apply returns_apply_pitch_adjustment_perm |].
  intros h Hh. by rewrite Hh.
Qed.

(** The replacement of the worst record keeps the memory good, and its
    best fitness does not grow. *)
Lemma returns_update_memory (numbers : list Q) (t : Q) (hms : nat)
    (hm : list record) (h : list Q) (w : world) :
  (1 <= hms)%nat -> good_memory numbers t hms hm -> h ≡ₚ numbers ->
  returns (update_memory hm h (calculate_fitness h numbers t)) w (fun hm' =>
    good_memory numbers t hms hm' /\
    exists f f' : num,
      best_fitness hm = Some f /\ best_fitness hm' = Some f' /\ num_le f' f).
Proof.
  intros Hhms (Hlen & Hsorted & Hgood) Hh. unfold update_memory, getlast.
  destruct (last hm) as [worst|] eqn:Hlast.
  2:{ apply last_None in Hlast. subst hm. simpl in Hlen. lia. }
  eapply returns_bind; [by apply (returns_ret worst w (fun x => x = worst)) |].
  intros ? w1 ->.
  destruct (head hm) as [r0|] eqn:Hhead.
  2:{ apply head_None in Hhead. by subst hm. }
  set (new := Rec h (calculate_fitness h numbers t)).
  destruct (num_ltb (calculate_fitness h numbers t) (fitness worst)) eqn:Hlt.
  2:{ apply returns_ret. split; [done |].
      exists (fitness r0), (fitness r0). unfold best_fitness. rewrite Hhead.
      repeat split. apply num_le_refl. }
  apply returns_ret.
  set (hm1 := <[(length hm - 1)%nat := new]> hm).
  assert (Forall (good_record numbers t) hm1) as Hgood1.
  { apply Forall_insert; [done | by apply good_record_generated]. }
  assert (length hm1 = hms) as Hlen1 by (unfold hm1; by rewrite length_insert).
  split.
  { rewrite <- Hlen1. by apply good_memory_sort. }
  destruct (head (sort_by_fitness hm1)) as [r1|] eqn:Hhead1.
  2:{ apply head_None in Hhead1.
      pose proof (sort_by_fitness_perm hm1) as Hp. rewrite Hhead1 in Hp.
      apply Permutation_length in Hp. simpl in Hp. lia. }
  exists (fitness r0), (fitness r1). unfold best_fitness.
  rewrite Hhead, Hhead1. repeat split.
  assert (forall r, r ∈ hm1 -> fitness_le r1 r) as Hleast.
  { intros r Hr. eapply sorted_head_least;
      [apply sort_by_fitness_sorted | done | by rewrite sort_by_fitness_perm]. }
  destruct hm as [|x [|y rest]]; [done | |].
  - (* a memory of one record: the new record takes its place *)
    simpl in Hhead, Hlast. simplify_eq.
    apply num_le_trans with (fitness new); [| by apply num_ltb_true].
    apply Hleast. unfold hm1. simpl. by left.
  - (* the former best record is still in the memory *)
    simpl in Hhead. simplify_eq. apply Hleast.
    unfold hm1. apply list_elem_of_lookup. exists 0%nat.
    rewrite list_lookup_insert_ne; [done | simpl; lia].
Qed.

Lemma best_never_worse_snoc (hist : list (list record)) (hm hm' : list record) :
  best_never_worse hist -> last hist = Some hm ->
  (exists f f' : num,
     best_fitness hm = Some f /\ best_fitness hm' = Some f' /\ num_le f' f) ->
  best_never_worse (hist ++ [hm']).
Proof.
  intros Hhist Hlast Hstep k before after Hk HSk.
  destruct (decide (S k < length hist)%nat) as [Hlt|Hge].
  - rewrite lookup_app_l in Hk by lia. rewrite lookup_app_l in HSk by lia.
    by eapply Hhist.
  - assert (S k = length hist) as Heq.
    { apply lookup_lt_Some in HSk. rewrite length_app in HSk. simpl in HSk. lia. }
    rewrite lookup_app_l in Hk by lia.
    rewrite lookup_app_r in HSk by lia.
    rewrite Heq, Nat.sub_diag in HSk. simpl in HSk.
    rewrite last_lookup, <- Heq in Hlast. simpl in Hlast.
    by simplify_eq.
Qed.

Lemma history_invariant_snoc (numbers : list Q) (t : Q) (hms : nat)
    (hist : list (list record)) (hm hm' : list record) :
  history_invariant numbers t hms hist -> last hist = Some hm ->
  good_memory numbers t hms hm' ->
  (exists f f' : num,
     best_fitness hm = Some f /\ best_fitness hm' = Some f' /\ num_le f' f) ->
  history_invariant numbers t hms (hist ++ [hm']).
Proof.
  intros [Hall Hbest] Hlast Hgood Hstep. split.
  - apply Forall_app. split; [done |]. constructor; [done | constructor].
  - by eapply best_never_worse_snoc.
Qed.

Lemma good_memory_head (numbers : list Q) (t : Q) (hms : nat) (hm : list record) :
  (1 <= hms)%nat -> good_memory numbers t hms hm ->
  exists r : record, hm !! 0%nat = Some r /\ good_record numbers t r.
Proof.
  intros Hhms (Hlen & _ & Hgood).
  destruct hm as [|r hm]; [simpl in Hlen; lia |].
  exists r. split; [done |]. by apply Forall_cons in Hgood as [? _].
Qed.

(** An improvisation keeps the loop invariant; the one exception it can
    raise is the division by [ni // 10] of line 129. *)
Lemma wp_improvisation (numbers : list Q) (t : Q) (hms : nat) (hmcr par : Q)
    (ni : nat) (hm : list record) (iteration : nat) (w : world) :
  (1 <= hms)%nat -> loop_invariant numbers t hms hm w ->
  wp (improvisation numbers hms hmcr par ni t hm iteration) w
    (fun hm' w' =>
       loop_invariant numbers t hms hm' w' /\ (ni / 10)%nat <> 0%nat /\
       length (history w') = S (length (history w)))
    (fun e w' =>
       e = ZeroDivisionError /\ (ni / 10)%nat = 0%nat /\
       history_invariant numbers t hms (history w') /\
       length (history w') = S (length (history w))).
Proof.
  intros Hhms (Hgood & Hlast & Hinv). unfold improvisation.
  eapply wp_returns; [by eapply returns_improvise |].
  intros h w1 (_ & _ & Hh1) Hh. cbv beta in Hh.
  eapply wp_returns; [by eapply returns_update_memory |].
  intros hm' w2 (_ & _ & Hh2) [Hgood' Hstep].
  assert (history w2 = history w) as Hhist by congruence.
  assert (history_invariant numbers t hms (history w ++ [hm'])) as Hinv'
    by (by eapply history_invariant_snoc).
  assert (length (history w ++ [hm']) = S (length (history w))) as Hlen'
    by (rewrite length_app; simpl; lia).
  apply wp_bind, wp_observe, wp_bind.
  unfold report_progress.
  destruct (Nat.eqb_spec (ni / 10) 0) as [Hz|Hnz].
  { apply wp_raise. cbn [history]. rewrite Hhist. done. }
  assert (forall w3, history w3 = history w ++ [hm'] ->
    wp (mret hm') w3
      (fun hm'0 w' => loop_invariant numbers t hms hm'0 w' /\
         (ni / 10)%nat <> 0%nat /\ length (history w') = S (length (history w)))
      (fun e w' => e = ZeroDivisionError /\ (ni / 10)%nat = 0%nat /\
         history_invariant numbers t hms (history w') /\
         length (history w') = S (length (history w)))) as Hend.
  { intros w3 Hw3. apply wp_ret. unfold loop_invariant. rewrite Hw3.
    split; [| done]. split; [done |]. split; [apply last_snoc | done]. }
  destruct ((iteration + 1) mod (ni / 10) =? 0)%nat.
  - destruct (good_memory_head _ _ _ _ Hhms Hgood') as (best & Hbest & _).
    apply wp_bind, (wp_getitem _ _ _ _ _ _ Hbest), wp_print. apply Hend. cbn [history]. by rewrite Hhist.
  - apply wp_ret. apply Hend. cbn [history]. by rewrite Hhist.
Qed.

Lemma wp_improvisation_loop (numbers : list Q) (t : Q) (hms : nat)
    (hmcr par : Q) (ni : nat) (iterations : list nat) (hm : list record)
    (w : world) :
  (1 <= hms)%nat -> loop_invariant numbers t hms hm w ->
  wp (improvisation_loop numbers hms hmcr par ni t iterations hm) w
    (fun hm' w' =>
       loop_invariant numbers t hms hm' w' /\
       (iterations = [] \/ (ni / 10)%nat <> 0%nat) /\
       length (history w') = (length (history w) + length iterations)%nat)
    (fun e w' =>
       e = ZeroDivisionError /\ (ni / 10)%nat = 0%nat /\ iterations <> [] /\
       history_invariant numbers t hms (history w') /\
       length (history w') = S (length (history w))).
Proof.
  intros Hhms. revert hm w.
  induction iterations as [|iteration rest IH]; intros hm w Hinv.
  { apply wp_ret. repeat split; [apply Hinv.. | by left | simpl; lia]. }
  cbn [improvisation_loop]. apply wp_bind.
  eapply wp_mono; [by apply wp_improvisation | |].
  - intros hm' w' (Hinv' & Hnz & Hlen). cbv beta.
    eapply wp_mono; [by apply IH | |].
    + intros hm'' w'' (Hinv'' & _ & Hlen'').
      repeat split; [apply Hinv''.. | by right | simpl; lia].
    + intros e w'' (_ & Hz & _). done.
  - intros e w' (-> & Hz & Hinv' & Hlen). done.
Qed.

(** ** The run as a whole *)

Lemma returns_decode_pairs (final_harmony : list Q) (t : Q) (indices : list nat)
    (best_pairs : list pair_info) (w : world) :
  Forall (fun i => (2 * i + 1 < length final_harmony)%nat) indices ->
  returns (decode_pairs final_harmony t indices best_pairs) w (fun _ => True).
Proof.
  revert best_pairs w.
  induction indices as [|i indices IH]; intros best_pairs w Hin.
  { by apply returns_ret. }
  apply Forall_cons in Hin as [Hi Hin]. cbn [decode_pairs].
  destruct (lookup_lt_is_Some_2 final_harmony (2 * i)) as [a Ha]; [lia |].
  destruct (lookup_lt_is_Some_2 final_harmony (2 * i + 1)) as [b Hb]; [lia |].
  eapply returns_bind; [by apply returns_getitem |]. intros ? w1 ->.
  eapply returns_bind; [by apply returns_getitem |]. intros ? w2 ->.
  by apply IH.
Qed.

Lemma wp_print_pairs (best_pairs : list pair_info) (w : world) :
  wp (print_pairs best_pairs) w
    (fun _ w' => history w' = history w) (fun _ _ => False).
Proof.
  revert w. induction best_pairs as [|p rest IH]; intros w; [done |].
  cbn [print_pairs]. apply wp_bind, wp_print.
  eapply wp_mono; [apply IH | | done]. by intros [] w' ->.
Qed.

(** The odd-length exit, lines 68-70. *)
Lemma search_odd (numbers : list Q) (hms : nat) (hmcr par : Q) (ni : nat)
    (w : world) :
  (length numbers mod 2)%nat <> 0%nat ->
  harmony_search_pairing numbers hms hmcr par ni w =
  (Ok (None, PInf),
   World (tape w) (cursor w) (stdout w ++ [PrintOddError]) (history w)).
Proof.
  intros Hodd. unfold harmony_search_pairing.
  destruct (Nat.eqb_spec (length numbers mod 2) 0); [done |]. done.
Qed.

(** The empty-input exit, lines 71-73. *)
Lemma search_empty (hms : nat) (hmcr par : Q) (ni : nat) (w : world) :
  harmony_search_pairing [] hms hmcr par ni w =
  (Ok (Some [], Fin 0),
   World (tape w) (cursor w) (stdout w ++ [PrintEmptyError]) (history w)).
Proof. done. Qed.

(** The main path: what a run on a non-empty input of even length does. *)
Lemma wp_search_valid (numbers : list Q) (hms : nat) (hmcr par : Q) (ni : nat)
    (w : world) :
  (length numbers mod 2)%nat = 0%nat -> numbers <> [] -> history w = [] ->
  wp (harmony_search_pairing numbers hms hmcr par ni) w
    (fun res w' =>
       (1 <= hms)%nat /\ (ni = 0%nat \/ (ni / 10)%nat <> 0%nat) /\
       history_invariant numbers (target_average_of numbers) hms (history w') /\
       length (history w') = S ni /\
       exists (hm : list record) (r : record),
         last (history w') = Some hm /\ head hm = Some r /\
         res = (Some (harmony r), fitness r))
    (fun e w' =>
       history_invariant numbers (target_average_of numbers) hms (history w') /\
       ((hms = 0%nat /\ e = IndexError /\ history w' = [[]]) \/
        ((1 <= hms)%nat /\ e = ZeroDivisionError /\ (ni / 10)%nat = 0%nat /\
         ni <> 0%nat /\ length (history w') = 2%nat))).
Proof.
  intros Heven Hne Hhist. unfold harmony_search_pairing.
  rewrite Heven. cbn [Nat.eqb negb].
  destruct (Nat.eqb_spec (length numbers) 0) as [Hz|_].
  { by destruct numbers. }
  cbv zeta. fold (target_average_of numbers).
  set (t := target_average_of numbers).
  apply wp_bind, wp_print.
  eapply wp_returns; [by apply returns_fill_memory |].
  intros hm0 w1 (_ & _ & Hh1) [Hlen0 Hgood0]. cbn [history length] in *.
  simpl in Hlen0.
  pose proof (good_memory_sort numbers t hm0 Hgood0) as Hgood.
  rewrite Hlen0 in Hgood. set (hm := sort_by_fitness hm0) in *.
  apply wp_bind, wp_observe. rewrite Hh1, Hhist. cbn [app].
  assert (history_invariant numbers t hms [hm]) as Hinv.
  { split; [constructor; [done | constructor] |].
    by intros [|k] before after Hk HSk. }
  destruct (decide (hms = 0%nat)) as [->|Hhms].
  { destruct Hgood as (Hlen & _). destruct hm; [| done].
    apply wp_bind, wp_raise. split; [done |]. by left. }
  assert (1 <= hms)%nat as Hhms' by lia.
  destruct (good_memory_head _ _ _ _ Hhms' Hgood) as (best & Hbest & _).
  apply wp_bind, (wp_getitem _ _ _ _ _ _ Hbest), wp_bind, wp_print, wp_bind.
  eapply wp_mono.
  { apply wp_improvisation_loop; [done |]. by split; [| split]. }
  2:{ intros e w' (-> & Hz & Hits & Hinv' & Hlen'). split; [done |]. right.
      repeat split; try done. by destruct ni. }
  intros hm' w2 ((Hgood' & Hlast' & Hinv') & Hni & Hlen'). cbv beta.
  cbn [history length] in Hlen'. rewrite length_seq in Hlen'.
  destruct (good_memory_head _ _ _ _ Hhms' Hgood')
    as (best_solution & Hbs & [Hperm _]).
  apply wp_bind, (wp_getitem _ _ _ _ _ _ Hbs), wp_bind, wp_print, wp_bind, wp_print.
  eapply wp_returns.
  { apply returns_decode_pairs. rewrite (Permutation_length Hperm).
    apply pair_indices_in_range. }
  intros best_pairs w3 (_ & _ & Hh3) _. cbn [history] in Hh3.
  apply wp_bind, wp_print, wp_bind, wp_print, wp_bind.
  eapply wp_mono; [apply wp_print_pairs | | done].
  intros [] w4 Hh4. cbn [history] in Hh4. apply wp_ret.
  rewrite Hh4, Hh3.
  split; [done |]. split.
  { destruct Hni as [Hni|Hni]; [| by right]. left.
    by destruct ni. }
  split; [done |]. split; [lia |].
  exists hm', best_solution. by rewrite head_lookup.
Qed.

Lemma div10_zero (ni : nat) : (ni / 10)%nat = 0%nat <-> (ni < 10)%nat.
Proof. by apply Nat.div_small_iff. Qed.

(** Every run keeps the invariant of the observation log. *)
Lemma run_history_invariant (numbers : list Q) (hms : nat) (hmcr par : Q)
    (ni : nat) (tape : nat -> N) :
  history_invariant numbers (target_average_of numbers) hms
    (history (run numbers hms hmcr par ni tape).2).
Proof.
  assert (history_invariant numbers (target_average_of numbers) hms [])
    as Hnil by (split; [constructor | by intros k ? ? ?]).
  unfold run.
  destruct (decide ((length numbers mod 2)%nat = 0%nat)) as [Heven|Hodd].
  2:{ by rewrite search_odd. }
  destruct (decide (numbers = [])) as [->|Hne].
  { by rewrite search_empty. }
  pose proof (wp_search_valid numbers hms hmcr par ni (initial_world tape)
                Heven Hne eq_refl) as Hwp.
  unfold wp in Hwp.
  destruct (harmony_search_pairing _ _ _ _ _ _) as [[res|e] w']; simpl.
  - apply Hwp.
  - apply Hwp.
Qed.


(** With [1 <= ni <= 9] a run on valid input raises ZeroDivisionError at
    the end of its first improvisation. *)
Lemma run_raises (numbers : list Q) (hms : nat) (hmcr par : Q) (ni : nat)
    (tape : nat -> N) :
  (length numbers mod 2)%nat = 0%nat -> numbers <> [] -> (1 <= hms)%nat ->
  (1 <= ni <= 9)%nat ->
  exists w' : world,
    run numbers hms hmcr par ni tape = (Raise ZeroDivisionError, w') /\
    length (history w') = 2%nat.
Proof.
  intros Heven Hne Hhms Hni.
  pose proof (wp_search_valid numbers hms hmcr par ni (initial_world tape)
                Heven Hne eq_refl) as Hwp.
  unfold wp in Hwp. unfold run.
  destruct (harmony_search_pairing _ _ _ _ _ _) as [[res|e] w'].
  - destruct Hwp as (_ & [Hz|Hnz] & _); [lia |].
    exfalso. apply Hnz, div10_zero. lia.
  - destruct Hwp as (_ & [(-> & _)|(_ & -> & _ & _ & Hlen)]); [lia |].
    by exists w'.
Qed.

(** The length of the memory after the update of lines 120-126. *)
Lemma update_memory_length (hm : list record) (h : list Q) (f : num) (w : world) :
  match update_memory hm h f w with
  | (Ok hm', _) => length hm' = length hm
  | (Raise _, _) => hm = []
  end.
Proof.
  unfold update_memory, getlast, mbind, M_bind.
  destruct (last hm) as [worst|] eqn:Hlast; simpl.
  - destruct (num_ltb f (fitness worst)); simpl; [| done].
    by rewrite sort_by_fitness_perm, length_insert.
  - by apply last_None.
Qed.

(** * The claims of the specification *)

(** C1: for a harmony that is a full permutation of the even-length
    [numbers], [calculate_fitness] is the sum, over the [n/2] index pairs
    (0,1), (2,3), ..., of [abs(harmony[2i] + harmony[2i+1] - t)];
    [calculate_fitness([1,9,2,8], [1,9,2,8], 5) = 10]; and on the empty
    harmony the result is +infinity (the empty harmony is the stated
    exception to the sum). *)
Theorem calculate_fitness_spec (harmony numbers : list Q) (t : Q) :
  (harmony ≡ₚ numbers -> Nat.Even (length numbers) -> harmony <> [] ->
   calculate_fitness harmony numbers t =
   Fin (sum_pair_deviations harmony t (length numbers / 2))) /\
  calculate_fitness [1; 9; 2; 8] [1; 9; 2; 8] 5 = Fin 10 /\
  calculate_fitness [] numbers t = PInf.
Proof.
  split; [| by split].
  intros Hperm _ Hne. apply calculate_fitness_full; [| done].
  by apply Permutation_length.
Qed.

Lemma calculate_fitness_spec_witness :
  ([1; 4; 2; 3] ≡ₚ [1; 2; 3; 4] /\ Nat.Even (length [1; 2; 3; 4 : Q]) /\
   [1; 4; 2; 3 : Q] <> []) /\
  calculate_fitness [1; 4; 2; 3] [1; 2; 3; 4] 5 =
  Fin (sum_pair_deviations [1; 4; 2; 3] 5 (length [1; 2; 3; 4 : Q] / 2)).
Proof.
  assert ([1; 4; 2; 3] ≡ₚ [1; 2; 3; 4 : Q]) as Hperm.
  { apply perm_skip. etransitivity; [apply perm_swap |]. apply perm_skip, perm_swap. }
  assert (Nat.Even (length [1; 2; 3; 4 : Q])) as Heven by (exists 2%nat; reflexivity).
  assert ([1; 4; 2; 3 : Q] <> []) as Hne by discriminate.
  split; [by repeat split |].
  exact (proj1 (calculate_fitness_spec [1; 4; 2; 3] [1; 2; 3; 4] 5) Hperm Heven Hne).
Defined.

(** C2: the fitness of the first (best) record of the harmony memory never
    grows from one observation of a run to the next, that is, from the
    initial sort to the first improvisation and from each improvisation to
    the following one. *)
Theorem best_fitness_non_increasing (numbers : list Q) (hms : nat)
    (hmcr par : Q) (ni : nat) (tape : nat -> N) (k : nat)
    (before after : list record) :
  history (run numbers hms hmcr par ni tape).2 !! k = Some before ->
  history (run numbers hms hmcr par ni tape).2 !! S k = Some after ->
  exists f f' : num,
    best_fitness before = Some f /\ best_fitness after = Some f' /\
    num_le f' f.
Proof.
  intros Hk HSk.
  destruct (run_history_invariant numbers hms hmcr par ni tape) as [_ Hbest].
  by eapply Hbest.
Qed.

(** C3: in every run, each observed harmony memory (after the initial sort
    and after every improvisation) is sorted non-decreasing by fitness. *)
Theorem memory_always_sorted (numbers : list Q) (hms : nat) (hmcr par : Q)
    (ni : nat) (tape : nat -> N) :
  Forall sorted_by_fitness (history (run numbers hms hmcr par ni tape).2).
Proof.
  destruct (run_history_invariant numbers hms hmcr par ni tape) as [Hall _].
  eapply Forall_impl; [exact Hall |].
  intros hm (_ & Hsorted & _). by apply StronglySorted_index.
Qed.

(** C4: in every run, each observed harmony memory has exactly [hms]
    records, and the replacement of the worst record (lines 120-126) returns
    a memory of the length it was given; it raises on the empty memory only. *)
Theorem memory_size_constant (numbers : list Q) (hms : nat) (hmcr par : Q)
    (ni : nat) (tape : nat -> N) :
  Forall (fun hm => length hm = hms)
    (history (run numbers hms hmcr par ni tape).2) /\
  forall (hm : list record) (h : list Q) (f : num) (w : world),
    match update_memory hm h f w with
    | (Ok hm', _) => length hm' = length hm
    | (Raise _, _) => hm = []
    end.
Proof.
  split; [| apply update_memory_length].
  destruct (run_history_invariant numbers hms hmcr par ni tape) as [Hall _].
  eapply Forall_impl; [exact Hall |]. by intros hm (Hlen & _).
Qed.

(** C5: in every run, every harmony of every observed harmony memory is a
    permutation of the input sequence. *)
Theorem stored_harmonies_are_permutations (numbers : list Q) (hms : nat)
    (hmcr par : Q) (ni : nat) (tape : nat -> N) :
  Forall (Forall (fun r => harmony r ≡ₚ numbers))
    (history (run numbers hms hmcr par ni tape).2).
Proof.
  destruct (run_history_invariant numbers hms hmcr par ni tape) as [Hall _].
  eapply Forall_impl; [exact Hall |]. intros hm (_ & _ & Hgood).
  eapply Forall_impl; [exact Hgood |]. by intros r [Hperm _].
Qed.

(** C6: on an input of odd length [harmony_search_pairing] returns
    [(None, +infinity)]; it raises nothing, reads no cell of the random
    source, observes no harmony memory, and prints the error line only. *)
Theorem odd_length_rejected (numbers : list Q) (hms : nat) (hmcr par : Q)
    (ni : nat) (w : world) :
  Nat.Odd (length numbers) ->
  harmony_search_pairing numbers hms hmcr par ni w =
  (Ok (None, PInf),
   World (tape w) (cursor w) (stdout w ++ [PrintOddError]) (history w)).
Proof.
  intros [k Hk]. apply search_odd. rewrite Hk.
  rewrite Nat.add_comm, Nat.mul_comm, Nat.Div0.mod_add. done.
Qed.

Lemma odd_length_rejected_witness :
  Nat.Odd (length [1; 2; 3 : Q]) /\
  harmony_search_pairing [1; 2; 3] 3 (9 # 10) (3 # 10) 20
    (initial_world sample_tape) =
  (Ok (None, PInf), World sample_tape 0 [PrintOddError] []).
Proof.
  assert (Nat.Odd (length [1; 2; 3 : Q])) as Hodd by (exists 1%nat; reflexivity).
  split; [exact Hodd |].
  exact (odd_length_rejected [1; 2; 3] 3 (9 # 10) (3 # 10) 20
           (initial_world sample_tape) Hodd).
Defined.

(** C7: on the empty input [harmony_search_pairing] returns [([], 0)] at
    once: no cell of the random source is read, no harmony memory is
    observed, and the one line printed is that of line 72. *)
Theorem empty_input_trivial (hms : nat) (hmcr par : Q) (ni : nat) (w : world) :
  harmony_search_pairing [] hms hmcr par ni w =
  (Ok (Some [], Fin 0),
   World (tape w) (cursor w) (stdout w ++ [PrintEmptyError]) (history w)).
Proof. apply search_empty. Qed.

(** C8 (the code departs from it): with [ni = 5] the run on [1, 2, 3, 4]
    with [hms = 3] raises ZeroDivisionError on every tape, after the update
    of its first improvisation: two memories were observed, not six. *)
Theorem five_improvisations_raise (tape : nat -> N) :
  (run [1; 2; 3; 4] 3 (9 # 10) (3 # 10) 5 tape).1 = Raise ZeroDivisionError /\
  length (history (run [1; 2; 3; 4] 3 (9 # 10) (3 # 10) 5 tape).2) = 2%nat.
Proof.
  destruct (run_raises [1; 2; 3; 4] 3 (9 # 10) (3 # 10) 5 tape)
    as (w' & Hrun & Hlen); [done | done | lia | lia |].
  by rewrite Hrun.
Qed.

Lemma best_fitness_non_increasing_witness :
  exists before after : list record,
    (history (run [1; 2; 3; 4] 3 (9 # 10) (3 # 10) 10 sample_tape).2 !! 1%nat = Some before /\
     history (run [1; 2; 3; 4] 3 (9 # 10) (3 # 10) 10 sample_tape).2 !! 2%nat = Some after) /\
    exists f f' : num,
      best_fitness before = Some f /\ best_fitness after = Some f' /\
      num_le f' f.
Proof.
  assert (is_Some (history (run [1; 2; 3; 4] 3 (9 # 10) (3 # 10) 10 sample_tape).2 !! 1%nat)) as [before Hb]
    by (vm_compute; eauto).
  assert (is_Some (history (run [1; 2; 3; 4] 3 (9 # 10) (3 # 10) 10 sample_tape).2 !! 2%nat)) as [after Ha]
    by (vm_compute; eauto).
  exists before, after. split; [by split |].
  exact (best_fitness_non_increasing [1; 2; 3; 4] 3 (9 # 10) (3 # 10) 10
           sample_tape 1 before after Hb Ha).
Defined.

(** C9: on a harmony of length at least 2, [apply_pitch_adjustment] returns
    a permutation of the harmony that differs from it in at most 2
    positions, those of two distinct indices whose items are exchanged; on a
    shorter harmony it returns the harmony unchanged and reads nothing. *)
Theorem pitch_adjustment_swaps (harmony : list Q) (w : world) :
  ((2 <= length harmony)%nat ->
   exists (h' : list Q) (w' : world) (idx1 idx2 : nat),
     apply_pitch_adjustment harmony w = (Ok h', w') /\
     h' ≡ₚ harmony /\
     (length (differing_positions harmony h') <= 2)%nat /\
     idx1 <> idx2 /\ (idx1 < length harmony)%nat /\ (idx2 < length harmony)%nat /\
     h' !! idx1 = harmony !! idx2 /\ h' !! idx2 = harmony !! idx1 /\
     forall k : nat, k <> idx1 -> k <> idx2 -> h' !! k = harmony !! k) /\
  ((length harmony < 2)%nat ->
   apply_pitch_adjustment harmony w = (Ok harmony, w)).
Proof.
  split.
  - intros Hlen.
    destruct (returns_inv _ _ _ (returns_apply_pitch_adjustment harmony w Hlen))
      as (h' & w' & Hrun & _ & idx1 & idx2 & a & b & Hne & Hb & Ha & ->).
    pose proof (lookup_lt_Some _ _ _ Hb) as H1.
    pose proof (lookup_lt_Some _ _ _ Ha) as H2.
    exists (<[idx2 := b]> (<[idx1 := a]> harmony)), w', idx1, idx2.
    split; [done |]. split; [by apply swap_permutation |].
    split; [apply differing_positions_swap |].
    split; [done |]. split; [done |]. split; [done |]. split; [| split].
    + rewrite list_lookup_insert_ne by done.
      rewrite list_lookup_insert_eq by done. done.
    + rewrite list_lookup_insert_eq by (by rewrite length_insert). done.
    + intros k Hk1 Hk2. by rewrite !list_lookup_insert_ne.
  - intros Hlen. unfold apply_pitch_adjustment.
    replace (length harmony <? 2)%nat with true
      by (symmetry; apply Nat.ltb_lt; lia).
    done.
Qed.

Lemma pitch_adjustment_swaps_witness :
  ((2 <= length ([1; 2; 3; 4]%Q : list Q))%nat /\
   exists (h' : list Q) (w' : world) (idx1 idx2 : nat),
     apply_pitch_adjustment [1; 2; 3; 4] (initial_world sample_tape) = (Ok h', w') /\
     h' ≡ₚ [1; 2; 3; 4] /\
     (length (differing_positions [1; 2; 3; 4]%Q h') <= 2)%nat /\
     idx1 <> idx2 /\ (idx1 < 4)%nat /\ (idx2 < 4)%nat /\
     h' !! idx1 = ([1; 2; 3; 4] : list Q) !! idx2 /\
     h' !! idx2 = ([1; 2; 3; 4] : list Q) !! idx1 /\
     forall k : nat, k <> idx1 -> k <> idx2 -> h' !! k = ([1; 2; 3; 4] : list Q) !! k) /\
  ((length ([7]%Q : list Q) < 2)%nat /\
   apply_pitch_adjustment [7] (initial_world sample_tape) =
   (Ok [7], initial_world sample_tape)).
Proof.
  assert (2 <= length ([1; 2; 3; 4]%Q : list Q))%nat as Hlong by (simpl; lia).
  assert (length ([7]%Q : list Q) < 2)%nat as Hshort by (simpl; lia).
  split; (split; [done |]).
  - exact (proj1 (pitch_adjustment_swaps [1; 2; 3; 4] (initial_world sample_tape)) Hlong).
  - exact (proj2 (pitch_adjustment_swaps [7] (initial_world sample_tape)) Hshort).
Defined.

(** C10: in every run, each record of each observed harmony memory stores
    the fitness of its harmony for the run's numbers and target average;
    and the pair a run on a non-empty input returns is the first record of
    the memory observed last, so that the returned fitness is the fitness
    of the returned harmony. *)
Theorem records_self_consistent (numbers : list Q) (hms : nat) (hmcr par : Q)
    (ni : nat) (tape : nat -> N) :
  let t := target_average_of numbers in
  let out := run numbers hms hmcr par ni tape in
  Forall (Forall (self_consistent numbers t)) (history out.2) /\
  forall (h : list Q) (f : num),
    numbers <> [] -> out.1 = Ok (Some h, f) ->
    (exists hm : list record,
       last (history out.2) = Some hm /\ head hm = Some (Rec h f)) /\
    f = calculate_fitness h numbers t.
Proof.
  intros t out.
  destruct (run_history_invariant numbers hms hmcr par ni tape) as [Hall _].
  fold t out in Hall. split.
  { eapply Forall_impl; [exact Hall |]. intros hm (_ & _ & Hgood).
    eapply Forall_impl; [exact Hgood |]. by intros r [_ Hself]. }
  intros h f Hne Hres.
  assert (exists hm r, last (history out.2) = Some hm /\ head hm = Some r /\
                       h = harmony r /\ f = fitness r)
    as (hm & r & Hlast & Hhead & -> & ->).
  { unfold out, run in *.
    destruct (decide ((length numbers mod 2)%nat = 0%nat)) as [Heven|Hodd].
    2:{ rewrite search_odd in Hres by done. done. }
    pose proof (wp_search_valid numbers hms hmcr par ni (initial_world tape)
                  Heven Hne eq_refl) as Hwp.
    unfold wp in Hwp.
    destruct (harmony_search_pairing _ _ _ _ _ _) as [[res|e] w']; [| done].
    destruct Hwp as (_ & _ & _ & _ & hm0 & r & Hlast0 & Hhead0 & ->).
    simpl in Hres. simplify_eq. by exists hm0, r. }
  split; [exists hm; by destruct r |].
  apply last_Some_elem_of in Hlast.
  pose proof (proj1 (Forall_forall _ _) Hall hm Hlast) as (_ & _ & Hgood).
  apply head_Some_elem_of in Hhead.
  by pose proof (proj1 (Forall_forall _ _) Hgood r Hhead) as [_ Hself].
Qed.

Lemma records_self_consistent_witness :
  exists (h : list Q) (f : num),
    (([1; 2; 3; 4] : list Q) <> [] /\
     (run [1; 2; 3; 4] 3 (9 # 10) (3 # 10) 10 sample_tape).1 = Ok (Some h, f)) /\
    (exists hm : list record,
       last (history (run [1; 2; 3; 4] 3 (9 # 10) (3 # 10) 10 sample_tape).2) =
       Some hm /\ head hm = Some (Rec h f)) /\
    f = calculate_fitness h [1; 2; 3; 4] (target_average_of [1; 2; 3; 4]).
Proof.
  assert (([1; 2; 3; 4] : list Q) <> []) as Hne by discriminate.
  assert (exists h f,
    (run [1; 2; 3; 4] 3 (9 # 10) (3 # 10) 10 sample_tape).1 = Ok (Some h, f))
    as (h & f & Hres) by (vm_compute; eauto).
  exists h, f. split; [by split |].
  exact (proj2 (records_self_consistent [1; 2; 3; 4] 3 (9 # 10) (3 # 10) 10
                  sample_tape) h f Hne Hres).
Defined.

(** * Further properties of the code *)

(** ** calculate_fitness *)





Lemma fold_fitness_step_inf (harmony : list Q) (t : Q) (indices : list nat) :
  fold_left (fitness_step harmony t) indices PInf = PInf.
Proof.
  induction indices as [|i indices IH]; [done |].
  simpl. unfold fitness_step at 2. by destruct (_ && _).
Qed.







(** ** generate_random_harmony *)

Lemma bind_ok {A B : Type} (m : M A) (f : A -> M B) (w w' : world) (a : A) :
  m w = (Ok a, w') -> (m ≫= f) w = f a w'.
Proof. intros Hm. unfold mbind, M_bind. by rewrite Hm. Qed.

Lemma randbelow_eval (n : nat) (w : world) :
  randbelow n w = (Ok (N.to_nat (tape w (cursor w) mod N.of_nat n)), advance w 1).
Proof. done. Qed.

Lemma swap_items_eval (x : list Q) (i j : nat) (a b : Q) (w : world) :
  x !! i = Some b -> x !! j = Some a ->
  swap_items x i j w = (Ok (<[j := b]> (<[i := a]> x)), w).
Proof.
  intros Hb Ha. unfold swap_items, getitem, mbind, M_bind. by rewrite Ha, Hb.
Qed.

Lemma advance_advance (w : world) (j k : nat) :
  advance (advance w j) k = advance w (j + k).
Proof. unfold advance. simpl. f_equal. lia. Qed.

Lemma shuffle_loop_cells (i : nat) (x : list Q) (w : world) :
  (i < length x)%nat ->
  exists x' : list Q, shuffle_loop i x w = (Ok x', advance w i) /\ x' ≡ₚ x.
Proof.
  revert x w. induction i as [|i IH]; intros x w Hi.
  { exists x. split; [by destruct w | done]. }
  cbn [shuffle_loop]. rewrite (bind_ok _ _ _ _ _ (randbelow_eval _ w)).
  set (j := N.to_nat (tape w (cursor w) mod N.of_nat (S i + 1))).
  assert (j < S i + 1)%nat as Hj.
  { assert (tape w (cursor w) mod N.of_nat (S i + 1) < N.of_nat (S i + 1))%N
      by (apply N.mod_upper_bound; lia). lia. }
  destruct (lookup_lt_is_Some_2 x (S i)) as [b Hb]; [lia |].
  destruct (lookup_lt_is_Some_2 x j) as [a Ha]; [lia |].
  rewrite (bind_ok _ _ _ _ _ (swap_items_eval x (S i) j a b _ Hb Ha)).
  destruct (IH (<[j := b]> (<[S i := a]> x)) (advance w 1)) as (x' & Hrun & Hperm).
  { rewrite !length_insert. lia. }
  exists x'. split.
  - rewrite Hrun, advance_advance. done.
  - rewrite Hperm. by apply swap_permutation.
Qed.

(** X4: on every tape [generate_random_harmony] returns a permutation of
    [numbers], never raises, reads exactly [len(numbers) - 1] cells of the
    random source (none for an empty or one-element list) and neither
    prints nor touches the harmony memory. *)
Theorem generate_random_harmony_cells (numbers : list Q) (w : world) :
  exists h : list Q,
    generate_random_harmony numbers w =
      (Ok h, advance w (length numbers - 1)) /\
    h ≡ₚ numbers.
Proof.
  unfold generate_random_harmony, shuffle.
  destruct numbers as [|a numbers].
  { exists []. split; [by destruct w | done]. }
  apply shuffle_loop_cells. simpl. lia.
Qed.

(** The shuffle reaches every arrangement: with [p] the part still to be
    shuffled and [s] the part already placed, any permutation [q] of [p] is
    produced by suitable cells. *)
Lemma shuffle_loop_reaches (i : nat) (p q s : list Q) :
  length p = S i -> q ≡ₚ p ->
  exists cells : list N,
    length cells = i /\
    forall (tp : nat -> N) (c : nat) (out : list line) (hist : list (list record)),
      (forall k : nat, (k < i)%nat -> tp (c + k)%nat = nth k cells 0%N) ->
      shuffle_loop i (p ++ s) (World tp c out hist) =
      (Ok (q ++ s), World tp (c + i) out hist).
Proof.
  revert p q s. induction i as [|i IH]; intros p q s Hlen Hperm.
  { exists []. split; [done |]. intros tp c out hist _.
    destruct p as [|a [|b p]]; try done.
    apply Permutation_singleton_r in Hperm as ->.
    cbn [shuffle_loop]. by rewrite Nat.add_0_r. }
  (* the last element of the target decides the first draw *)
  destruct (last q) as [v|] eqn:Hv.
  2:{ apply last_None in Hv. subst q. apply Permutation_length in Hperm.
      simpl in Hperm. lia. }
  apply last_Some in Hv as [q' ->].
  assert (v ∈ p) as Hin by (rewrite <- Hperm, elem_of_app, list_elem_of_singleton; by right).
  apply list_elem_of_lookup in Hin as [j Hj].
  pose proof (lookup_lt_Some _ _ _ Hj) as Hjlt.
  destruct (lookup_lt_is_Some_2 p (S i)) as [b Hb]; [lia |].
  set (x := p ++ s).
  assert (x !! S i = Some b) as Hxb by (unfold x; rewrite lookup_app_l; [done | lia]).
  assert (x !! j = Some v) as Hxv by (unfold x; rewrite lookup_app_l; [done | lia]).
  set (x' := <[j := b]> (<[S i := v]> x)).
  assert (x' ≡ₚ x) as Hx' by (by apply swap_permutation).
  assert (x' !! S i = Some v) as Hx'v.
  { unfold x'. destruct (decide (j = S i)) as [->|Hne].
    - rewrite list_lookup_insert_eq by (rewrite length_insert; by eapply lookup_lt_Some).
      congruence.
    - rewrite list_lookup_insert_ne by done.
      rewrite list_lookup_insert_eq by (by eapply lookup_lt_Some). done. }
  assert (drop (S (S i)) x' = s) as Hdrop.
  { unfold x'. rewrite !drop_insert_lt by lia.
    unfold x. by rewrite drop_app_length'. }
  assert (x' = take (S i) x' ++ v :: s) as Hsplit.
  { rewrite <- Hdrop. symmetry. by apply take_drop_middle. }
  assert (length x' = length x) as Hlenx' by (unfold x'; by rewrite !length_insert).
  assert (length (take (S i) x') = S i) as Hlen2.
  { rewrite length_take_le; [done |]. rewrite Hlenx'. unfold x.
    rewrite length_app. lia. }
  assert (q' ≡ₚ take (S i) x') as Hperm2.
  { apply (inj (.++ (v :: s))). rewrite <- Hsplit, Hx'. unfold x.
    rewrite <- Hperm. by rewrite <- app_assoc. }
  destruct (IH (take (S i) x') q' (v :: s) Hlen2 Hperm2) as (cells & Hcells & Hrun).
  exists (N.of_nat j :: cells). split; [simpl; by rewrite Hcells |].
  intros tp c out hist Htp. cbn [shuffle_loop].
  assert (tp c = N.of_nat j) as Hc.
  { pose proof (Htp 0%nat ltac:(lia)) as H0. by rewrite Nat.add_0_r in H0. }
  rewrite (bind_ok _ _ _ _ _
             (randbelow_complete (S i + 1) j tp c out hist ltac:(lia) Hc)).
  fold x.
  rewrite (bind_ok _ _ _ _ _ (swap_items_eval x (S i) j v b _ Hxb Hxv)).
  fold x'. rewrite Hsplit, Hrun.
  - rewrite <- app_assoc. simpl. do 2 f_equal. lia.
  - intros k Hk. pose proof (Htp (S k) ltac:(lia)) as HSk.
    simpl in HSk. rewrite <- HSk. f_equal. lia.
Qed.

(** X5: every permutation of [numbers] is generated on some tape: for each
    target arrangement there are [len(numbers) - 1] cells on which
    [generate_random_harmony] returns exactly it. *)
Theorem generate_random_harmony_reaches (numbers target : list Q) :
  target ≡ₚ numbers ->
  exists cells : list N,
    length cells = (length numbers - 1)%nat /\
    generate_random_harmony numbers (initial_world (tape_of cells)) =
    (Ok target, World (tape_of cells) (length numbers - 1) [] []).
Proof.
  intros Hperm. unfold generate_random_harmony, shuffle.
  destruct numbers as [|a numbers].
  { apply Permutation_nil_r in Hperm as ->. by exists []. }
  destruct (shuffle_loop_reaches (length numbers) (a :: numbers) target [])
    as (cells & Hcells & Hrun); [done | done |].
  exists cells.
  replace (length (a :: numbers) - 1)%nat with (length numbers) by (simpl; lia).
  split; [done |].
  specialize (Hrun (tape_of cells) 0%nat [] [] (fun k _ => eq_refl)).
  by rewrite !app_nil_r in Hrun.
Qed.

Lemma generate_random_harmony_reaches_witness :
  ([3; 1; 4; 2] : list Q) ≡ₚ [1; 2; 3; 4] /\
  exists cells : list N,
    length cells = (length ([1; 2; 3; 4]%Q : list Q) - 1)%nat /\
    generate_random_harmony [1; 2; 3; 4] (initial_world (tape_of cells)) =
    (Ok [3; 1; 4; 2], World (tape_of cells) (length ([1; 2; 3; 4]%Q : list Q) - 1) [] []).
Proof.
  assert (([3; 1; 4; 2] : list Q) ≡ₚ [1; 2; 3; 4]) as Hperm.
  { etransitivity; [apply perm_swap |]. apply perm_skip.
    change ([3; 4; 2] : list Q) with ([3; 4] ++ [2] : list Q).
    change ([2; 3; 4] : list Q) with ([2] ++ [3; 4] : list Q).
    apply Permutation_app_comm. }
  split; [exact Hperm |].
  exact (generate_random_harmony_reaches [1; 2; 3; 4] [3; 1; 4; 2] Hperm).
Defined.

(** ** apply_pitch_adjustment *)




(** ** update_memory *)

Lemma num_ltb_le_trans (c a b : num) :
  num_ltb c a = true -> num_le a b -> num_ltb c b = true.
Proof.
  destruct c as [z|], a as [x|], b as [y|]; simpl; try done.
  intros Hlt Hle. apply negb_true_iff in Hlt. apply negb_true_iff.
  destruct (Qle_bool y z) eqn:Hyz; [| done].
  apply Qle_bool_iff in Hyz.
  assert (Qle_bool x z = true) by (apply Qle_bool_iff; by apply Qle_trans with y).
  congruence.
Qed.

Lemma num_le_ltb_false (a b : num) : num_le a b -> num_ltb b a = false.
Proof.
  destruct a as [x|], b as [y|]; simpl; try done.
  intros Hle. apply negb_false_iff. by apply Qle_bool_iff.
Qed.

Lemma filter_all {A : Type} (P : A -> Prop) `{!forall x, Decision (P x)}
    (l : list A) :
  Forall P l -> filter P l = l.
Proof.
  induction 1 as [|x l Hx Hl IH]; [done |].
  rewrite filter_cons_True by done. by rewrite IH.
Qed.

Lemma filter_none {A : Type} (P : A -> Prop) `{!forall x, Decision (P x)}
    (l : list A) :
  Forall (fun x => ~ P x) l -> filter P l = [].
Proof.
  induction 1 as [|x l Hx Hl IH]; [done |].
  by rewrite filter_cons_False.
Qed.

(** If the first [i + 1] records of a list are all at most [c], then so is
    the record of rank [i] of any sorted arrangement of the list. *)
Lemma rank_domination (l1 l' : list record) (c : num) (i : nat) (r' : record) :
  l' ≡ₚ l1 -> StronglySorted fitness_le l' -> (S i <= length l1)%nat ->
  Forall (fun x => num_ltb c (fitness x) = false) (take (S i) l1) ->
  l' !! i = Some r' -> num_le (fitness r') c.
Proof.
  intros Hperm Hsorted Hlen Hsmall Hr'.
  destruct (num_ltb c (fitness r')) eqn:Hlt; [exfalso | by apply num_ltb_false].
  set (P := fun x : record => num_ltb c (fitness x) = false).
  assert (S i <= length (filter P l1))%nat as Hmany.
  { rewrite <- (take_drop (S i) l1), filter_app, length_app.
    rewrite (filter_all P) by done. rewrite length_take_le by done. lia. }
  assert (length (filter P l') <= i)%nat as Hfew.
  { rewrite <- (take_drop i l'), filter_app, length_app.
    rewrite (filter_none P (drop i l')).
    - pose proof (length_filter P (take i l')) as Hf.
      rewrite length_take in Hf. simpl. lia.
    - apply Forall_lookup. intros k x Hk. rewrite lookup_drop in Hk.
      assert (fitness_le r' x) as Hle
        by (eapply (StronglySorted_index l' Hsorted i (i + k)%nat); [lia | done | done]).
      unfold P. by rewrite (num_ltb_le_trans _ _ _ Hlt Hle). }
  rewrite Hperm in Hfew. lia.
Qed.

Lemma index_StronglySorted (hm : list record) :
  sorted_by_fitness hm -> StronglySorted fitness_le hm.
Proof.
  induction hm as [|r hm IH]; intros Hs; constructor.
  - apply IH. intros i j ri rj Hij Hi Hj.
    apply (Hs (S i) (S j)); [lia | done | done].
  - apply Forall_lookup. intros j rj Hj.
    apply (Hs 0%nat (S j)); [lia | done | done].
Qed.

(** X7: on a sorted non-empty memory [update_memory] never raises and
    leaves the world alone; the candidate replaces the last (worst) record
    exactly when its fitness is strictly lower, and then the memory is
    re-sorted; a candidate that only ties with the worst record, or is
    worse, is discarded and the memory is returned as it was. *)
Theorem update_memory_replaces_worst (hm : list record) (worst : record)
    (h : list Q) (f : num) (w : world) :
  sorted_by_fitness hm -> last hm = Some worst ->
  exists hm' : list record,
    update_memory hm h f w = (Ok hm', w) /\ sorted_by_fitness hm' /\
    ((num_ltb f (fitness worst) = true /\
      hm' ≡ₚ removelast hm ++ [Rec h f]) \/
     (num_le (fitness worst) f /\ hm' = hm)).
Proof.
  intros Hsorted Hlast. unfold update_memory, getlast, mbind, M_bind.
  rewrite Hlast. cbn [mret M_ret].
  destruct (num_ltb f (fitness worst)) eqn:Hlt.
  - eexists. split; [done |]. split.
    + apply StronglySorted_index, sort_by_fitness_sorted.
    + left. split; [done |]. rewrite sort_by_fitness_perm.
      apply last_Some in Hlast as [hm0 ->].
      rewrite removelast_last, length_app. simpl.
      replace (length hm0 + 1 - 1)%nat with (length hm0 + 0)%nat by lia.
      by rewrite insert_app_r.
  - exists hm. split; [done |]. split; [done |]. right.
    split; [by apply num_ltb_false | done].
Qed.

Lemma update_memory_replaces_worst_witness :
  (sorted_by_fitness [Rec [1; 4; 2; 3] (Fin 0); Rec [1; 2; 3; 4] (Fin 4)] /\
   last [Rec [1; 4; 2; 3] (Fin 0); Rec [1; 2; 3; 4] (Fin 4)] =
   Some (Rec [1; 2; 3; 4] (Fin 4))) /\
  exists hm' : list record,
    update_memory [Rec [1; 4; 2; 3] (Fin 0); Rec [1; 2; 3; 4] (Fin 4)]
      [1; 3; 2; 4] (Fin 2) (initial_world sample_tape) =
      (Ok hm', initial_world sample_tape) /\
    sorted_by_fitness hm' /\
    ((num_ltb (Fin 2) (fitness (Rec [1; 2; 3; 4] (Fin 4))) = true /\
      hm' ≡ₚ removelast [Rec [1; 4; 2; 3] (Fin 0); Rec [1; 2; 3; 4] (Fin 4)] ++
             [Rec [1; 3; 2; 4] (Fin 2)]) \/
     (num_le (fitness (Rec [1; 2; 3; 4] (Fin 4))) (Fin 2) /\
      hm' = [Rec [1; 4; 2; 3] (Fin 0); Rec [1; 2; 3; 4] (Fin 4)])).
Proof.
  assert (sorted_by_fitness [Rec [1; 4; 2; 3] (Fin 0); Rec [1; 2; 3; 4] (Fin 4)])
    as Hsorted.
  { apply StronglySorted_index. repeat constructor. by vm_compute. }
  split; [by split |].
  exact (update_memory_replaces_worst _ (Rec [1; 2; 3; 4] (Fin 4))
           [1; 3; 2; 4] (Fin 2) (initial_world sample_tape) Hsorted eq_refl).
Defined.

(** An update never makes a rank of a sorted memory worse. *)
Lemma update_memory_rank_le (hm hm' : list record) (h : list Q) (f : num)
    (w w' : world) (i : nat) (r r' : record) :
  sorted_by_fitness hm -> update_memory hm h f w = (Ok hm', w') ->
  hm !! i = Some r -> hm' !! i = Some r' ->
  num_le (fitness r') (fitness r).
Proof.
  intros Hsorted Hrun Hr Hr'. unfold update_memory, getlast, mbind, M_bind in Hrun.
  destruct (last hm) as [worst|] eqn:Hlast; [| done]. cbn [mret M_ret] in Hrun.
  destruct (num_ltb f (fitness worst)) eqn:Hlt.
  2:{ injection Hrun as <- _. assert (r' = r) as -> by congruence. apply num_le_refl. }
  injection Hrun as <- _.
  pose proof (lookup_lt_Some _ _ _ Hr) as Hi.
  rewrite last_lookup in Hlast.
  eapply (rank_domination _ _ (fitness r) i r'); [apply sort_by_fitness_perm |
    apply sort_by_fitness_sorted | by rewrite length_insert | | done].
  apply Forall_lookup. intros k x Hk.
  apply lookup_take_Some in Hk as [Hk Hki].
  apply num_le_ltb_false.
  apply list_lookup_insert_Some in Hk as [(Hlastk & Hx & _)|[Hne Hk]].
  - (* the candidate sits at the last position, so [r] was the worst *)
    subst x. cbn [fitness].
    assert (i = pred (length hm)) as Hieq by lia. rewrite Hieq in Hr.
    assert (r = worst) as -> by congruence.
    by apply num_ltb_true.
  - apply (Hsorted k i); [lia | done | done].
Qed.

(** X8: an update never makes any rank of a sorted memory worse: the record
    at each position of the returned memory has a fitness at most that of
    the record that held the position before. *)
Theorem update_memory_rankwise (hm hm' : list record) (h : list Q) (f : num)
    (w w' : world) (i : nat) (r r' : record) :
  sorted_by_fitness hm -> update_memory hm h f w = (Ok hm', w') ->
  hm !! i = Some r -> hm' !! i = Some r' ->
  num_le (fitness r') (fitness r).
Proof. apply update_memory_rank_le. Qed.

Lemma update_memory_rankwise_witness :
  (sorted_by_fitness [Rec [1; 4; 2; 3] (Fin 0); Rec [1; 2; 3; 4] (Fin 4)] /\
   update_memory [Rec [1; 4; 2; 3] (Fin 0); Rec [1; 2; 3; 4] (Fin 4)]
     [1; 3; 2; 4] (Fin 2) (initial_world sample_tape) =
     (Ok [Rec [1; 4; 2; 3] (Fin 0); Rec [1; 3; 2; 4] (Fin 2)],
      initial_world sample_tape) /\
   [Rec [1; 4; 2; 3] (Fin 0); Rec [1; 2; 3; 4] (Fin 4)] !! 1%nat =
     Some (Rec [1; 2; 3; 4] (Fin 4)) /\
   [Rec [1; 4; 2; 3] (Fin 0); Rec [1; 3; 2; 4] (Fin 2)] !! 1%nat =
     Some (Rec [1; 3; 2; 4] (Fin 2))) /\
  num_le (fitness (Rec [1; 3; 2; 4] (Fin 2))) (fitness (Rec [1; 2; 3; 4] (Fin 4))).
Proof.
  assert (sorted_by_fitness [Rec [1; 4; 2; 3] (Fin 0); Rec [1; 2; 3; 4] (Fin 4)])
    as Hsorted.
  { apply StronglySorted_index. repeat constructor. by vm_compute. }
  split; [by repeat split |].
  exact (update_memory_rankwise _ _ [1; 3; 2; 4] (Fin 2)
           (initial_world sample_tape) (initial_world sample_tape) 1
           _ _ Hsorted eq_refl eq_refl eq_refl).
Defined.

(** ** Outcomes of harmony_search_pairing *)

(** What a run that returns a harmony went through. *)
Lemma run_result_inv (numbers : list Q) (hms : nat) (hmcr par : Q) (ni : nat)
    (tape : nat -> N) (h : list Q) (f : num) :
  numbers <> [] ->
  (run numbers hms hmcr par ni tape).1 = Ok (Some h, f) ->
  exists (hm : list record) (r : record),
    last (history (run numbers hms hmcr par ni tape).2) = Some hm /\
    head hm = Some r /\ h = harmony r /\ f = fitness r /\
    (1 <= hms)%nat /\ (ni = 0%nat \/ (10 <= ni)%nat) /\
    length (history (run numbers hms hmcr par ni tape).2) = S ni.
Proof.
  intros Hne Hres. unfold run in *.
  destruct (decide ((length numbers mod 2)%nat = 0%nat)) as [Heven|Hodd].
  2:{ rewrite search_odd in Hres by done. done. }
  pose proof (wp_search_valid numbers hms hmcr par ni (initial_world tape)
                Heven Hne eq_refl) as Hwp.
  unfold wp in Hwp.
  destruct (harmony_search_pairing _ _ _ _ _ _) as [[res|e] w']; [| done].
  destruct Hwp as (Hhms & Hni & _ & Hlen & hm & r & Hlast & Hhead & ->).
  simpl in Hres. simplify_eq. exists hm, r. repeat split; try done.
  destruct Hni as [->|Hni]; [by left | right].
  destruct (le_lt_dec 10 ni) as [|Hlt]; [done |].
  apply div10_zero in Hlt. done.
Qed.





Lemma best_chain_to_last (hist : list (list record)) (hmL : list record)
    (f : num) (d k : nat) (hm : list record) :
  best_never_worse hist -> last hist = Some hmL -> best_fitness hmL = Some f ->
  (k + d = pred (length hist))%nat -> hist !! k = Some hm ->
  exists fk : num, best_fitness hm = Some fk /\ num_le f fk.
Proof.
  intros Hbest Hlast HfL. revert k hm.
  induction d as [|d IH]; intros k hm Hkd Hk.
  - rewrite last_lookup in Hlast.
    replace k with (pred (length hist)) in Hk by lia.
    assert (hm = hmL) as -> by congruence.
    exists f. split; [done | apply num_le_refl].
  - destruct (lookup_lt_is_Some_2 hist (S k)) as [hm2 Hk2]; [lia |].
    destruct (Hbest k hm hm2 Hk Hk2) as (fk & fk2 & Hfk & Hfk2 & Hle).
    destruct (IH (S k) hm2 ltac:(lia) Hk2) as (fk2' & Hfk2' & Hle').
    exists fk. split; [done |].
    assert (fk2' = fk2) as -> by congruence.
    by eapply num_le_trans.
Qed.

(** X11: the fitness a run returns is at most the fitness of every record
    of every harmony memory observed during the run: nothing better was
    ever in the memory, at initialisation or later. *)
Theorem returned_fitness_is_least (numbers : list Q) (hms : nat) (hmcr par : Q)
    (ni : nat) (tape : nat -> N) (h : list Q) (f : num)
    (hm : list record) (r : record) :
  numbers <> [] ->
  (run numbers hms hmcr par ni tape).1 = Ok (Some h, f) ->
  hm ∈ history (run numbers hms hmcr par ni tape).2 -> r ∈ hm ->
  num_le f (fitness r).
Proof.
  intros Hne Hres Hhm Hr.
  destruct (run_result_inv _ _ _ _ _ _ _ _ Hne Hres)
    as (hmL & rL & Hlast & Hhead & -> & -> & _).
  destruct (run_history_invariant numbers hms hmcr par ni tape) as [Hall Hbest].
  apply list_elem_of_lookup in Hhm as [k Hk].
  pose proof (lookup_lt_Some _ _ _ Hk) as Hklt.
  destruct (best_chain_to_last _ hmL (fitness rL)
              (pred (length (history (run numbers hms hmcr par ni tape).2)) - k)
              k hm Hbest Hlast) as (fk & Hfk & Hle); [| lia | done |].
  { unfold best_fitness. by rewrite Hhead. }
  apply num_le_trans with fk; [done |].
  unfold best_fitness in Hfk. destruct (head hm) as [r0|] eqn:Hr0; [| done].
  simpl in Hfk. injection Hfk as <-.
  pose proof (Forall_lookup_1 _ _ _ _ Hall Hk) as (_ & Hsorted & _).
  by eapply sorted_head_least.
Qed.

Lemma returned_fitness_is_least_witness :
  exists (h : list Q) (f : num) (hm : list record) (r : record),
    (([1; 2; 3; 4] : list Q) <> [] /\
     (run [1; 2; 3; 4] 3 (9 # 10) (3 # 10) 10 sample_tape).1 = Ok (Some h, f) /\
     hm ∈ history (run [1; 2; 3; 4] 3 (9 # 10) (3 # 10) 10 sample_tape).2 /\
     r ∈ hm) /\
    num_le f (fitness r).
Proof.
  assert (([1; 2; 3; 4] : list Q) <> []) as Hne by discriminate.
  assert (exists h f,
    (run [1; 2; 3; 4] 3 (9 # 10) (3 # 10) 10 sample_tape).1 = Ok (Some h, f))
    as (h & f & Hres) by (vm_compute; eauto).
  assert (exists hm r,
    history (run [1; 2; 3; 4] 3 (9 # 10) (3 # 10) 10 sample_tape).2 !! 0%nat = Some hm /\
    hm !! 2%nat = Some r) as (hm & r & Hhm & Hr) by (vm_compute; eauto).
  apply list_elem_of_lookup_2 in Hhm. apply list_elem_of_lookup_2 in Hr.
  exists h, f, hm, r. split; [by repeat split |].
  exact (returned_fitness_is_least [1; 2; 3; 4] 3 (9 # 10) (3 # 10) 10
           sample_tape h f hm r Hne Hres Hhm Hr).
Defined.

(** ** Decoding of the best harmony *)

Lemma getitem_eval {A : Type} (l : list A) (i : nat) (a : A) (w : world) :
  l !! i = Some a -> getitem l i w = (Ok a, w).
Proof. intros Hi. unfold getitem. by rewrite Hi. Qed.

Lemma decode_pairs_eval (h : list Q) (t : Q) (k j : nat)
    (acc : list pair_info) (w : world) :
  (2 * (j + k) <= length h)%nat ->
  decode_pairs h t (seq j k) acc w =
  (Ok (acc ++ pairs_of (take (2 * k) (drop (2 * j) h)) t), w).
Proof.
  revert j acc. induction k as [|k IH]; intros j acc Hlen.
  { simpl. by rewrite app_nil_r. }
  destruct (lookup_lt_is_Some_2 h (2 * j)) as [a Ha]; [lia |].
  destruct (lookup_lt_is_Some_2 h (2 * j + 1)) as [b Hb]; [lia |].
  cbn [seq decode_pairs].
  rewrite (bind_ok _ _ _ _ _ (getitem_eval h _ a w Ha)).
  rewrite (bind_ok _ _ _ _ _ (getitem_eval h _ b w Hb)).
  rewrite IH by lia.
  rewrite (drop_S h a (2 * j)) by done.
  replace (S (2 * j)) with (2 * j + 1)%nat by lia.
  rewrite (drop_S h b (2 * j + 1)) by done.
  replace (S (2 * j + 1)) with (2 * S j)%nat by lia.
  replace (2 * S k)%nat with (S (S (2 * k))) by lia.
  cbn [take pairs_of]. by rewrite <- app_assoc.
Qed.

Lemma pairs_of_spec (t : Q) (k : nat) (h : list Q) :
  length h = (2 * k)%nat ->
  length (pairs_of h t) = k /\
  flat_map pair_items (pairs_of h t) = h /\
  Forall (fun p => pi_sum p == (pi_pair p).1 + (pi_pair p).2 /\
                   pi_diff p = Qabs (pi_sum p - t)) (pairs_of h t) /\
  foldr Qplus 0 (pi_diff <$> pairs_of h t) == pairwise_deviation h t.
Proof.
  revert h. induction k as [|k IH]; intros h Hlen.
  { destruct h; [| done].
    split; [done |]. split; [done |]. split; [constructor | reflexivity]. }
  destruct h as [|a [|b rest]]; [done | simpl in Hlen; lia |].
  destruct (IH rest) as (Hl & Hflat & Hall & Hsum); [simpl in Hlen; lia |].
  cbn [pairs_of length flat_map pair_items pi_pair fst snd app fmap list_fmap
       foldr pi_diff pairwise_deviation].
  split; [by rewrite Hl |]. split; [by rewrite Hflat |]. split.
  - constructor; [| done]. cbn [pi_sum pi_pair pi_diff fst snd].
    split; [| done]. unfold pysum. simpl. ring.
  - change (list_fmap pair_info Q pi_diff (pairs_of rest t))
      with (pi_diff <$> pairs_of rest t).
    rewrite Hsum. apply Qplus_comp; [| reflexivity].
    apply Qabs_wd. unfold pysum. simpl. ring.
Qed.

(** X12: decoding a harmony of even length never raises and touches
    nothing; the pairs it returns, read in order, are the harmony itself,
    each carries the sum of its two numbers and the absolute difference of
    that sum from the target, and the differences add up to the sum of pair
    deviations, the fitness of the harmony. *)
Theorem decode_pairs_round_trip (h : list Q) (t : Q) (k : nat) (w : world) :
  length h = (2 * k)%nat ->
  exists pairs : list pair_info,
    decode_pairs h t (seq 0 k) [] w = (Ok pairs, w) /\
    length pairs = k /\
    flat_map pair_items pairs = h /\
    Forall (fun p => pi_sum p == (pi_pair p).1 + (pi_pair p).2 /\
                     pi_diff p = Qabs (pi_sum p - t)) pairs /\
    foldr Qplus 0 (pi_diff <$> pairs) == sum_pair_deviations h t k.
Proof.
  intros Hlen. exists (pairs_of h t).
  destruct (pairs_of_spec t k h Hlen) as (Hl & Hflat & Hall & Hsum).
  split.
  { rewrite decode_pairs_eval by lia. simpl drop.
    rewrite <- Hlen, firstn_all. done. }
  repeat split; try done.
  rewrite Hsum, <- sum_pair_deviations_pairwise.
  replace (length h / 2)%nat with k; [reflexivity |].
  rewrite Hlen, Nat.mul_comm. by rewrite Nat.div_mul.
Qed.

Lemma decode_pairs_round_trip_witness :
  length ([1; 4; 3; 2]%Q : list Q) = (2 * 2)%nat /\
  exists pairs : list pair_info,
    decode_pairs [1; 4; 3; 2] 5 (seq 0 2) [] (initial_world sample_tape) =
      (Ok pairs, initial_world sample_tape) /\
    length pairs = 2%nat /\
    flat_map pair_items pairs = [1; 4; 3; 2] /\
    Forall (fun p => pi_sum p == (pi_pair p).1 + (pi_pair p).2 /\
                     pi_diff p = Qabs (pi_sum p - 5)) pairs /\
    foldr Qplus 0 (pi_diff <$> pairs) == sum_pair_deviations [1; 4; 3; 2] 5 2.
Proof.
  assert (length ([1; 4; 3; 2]%Q : list Q) = (2 * 2)%nat) as Hlen by reflexivity.
  split; [exact Hlen |].
  exact (decode_pairs_round_trip [1; 4; 3; 2] 5 2 (initial_world sample_tape) Hlen).
Defined.

(** ** improvise at the ends of the range of its rates *)

(** [random.random()] reads one cell and returns a number in [0, 1). *)
Lemma random_eval (w : world) :
  exists q : Q, random w = (Ok q, advance w 1) /\ 0 <= q /\ q < 1.
Proof.
  eexists. split; [reflexivity |].
  assert (tape w (cursor w) mod 2 ^ 53 < 2 ^ 53)%N as Hlt
    by (by apply N.mod_upper_bound).
  change (2 ^ 53)%N with 9007199254740992%N in *.
  change (2 ^ 53)%positive with 9007199254740992%positive.
  unfold Qle, Qlt. simpl.
  generalize dependent (tape w (cursor w) mod 9007199254740992)%N. lia.
Qed.

(** X13: with [hmcr <= 0] the harmony memory is never consulted: after the
    one draw of [rand_hmcr] the improvisation is a fresh shuffle of
    [numbers], whatever the memory holds and whatever [par] is. *)
Theorem improvise_without_memory (numbers : list Q) (hms : nat) (hmcr par : Q)
    (hm : list record) (w : world) :
  hmcr <= 0 ->
  improvise numbers hms hmcr par hm w =
  generate_random_harmony numbers (advance w 1).
Proof.
  intros Hhmcr. unfold improvise.
  destruct (random_eval w) as (q & Hq & Hq0 & _).
  rewrite (bind_ok _ _ _ _ _ Hq).
  assert (Qltb q hmcr = false) as ->; [| done].
  unfold Qltb. apply negb_false_iff, Qle_bool_iff. lra.
Qed.

Lemma improvise_without_memory_witness :
  0 <= 0 /\
  improvise [1; 2; 3; 4] 3 0 (3 # 10) [] (initial_world sample_tape) =
  generate_random_harmony [1; 2; 3; 4] (advance (initial_world sample_tape) 1).
Proof.
  assert (0 <= 0) as Hle by apply Qle_refl.
  split; [exact Hle |].
  exact (improvise_without_memory [1; 2; 3; 4] 3 0 (3 # 10) []
           (initial_world sample_tape) Hle).
Defined.

(** With [hmcr >= 1] and [par <= 0] the new harmony is a stored one. *)
Lemma improvise_copy_eval (numbers : list Q) (hms : nat) (hmcr par : Q)
    (hm : list record) (w : world) :
  1 <= hmcr -> par <= 0 -> (1 <= hms)%nat -> length hm = hms ->
  exists r : record,
    r ∈ hm /\
    improvise numbers hms hmcr par hm w = (Ok (harmony r), advance w 3).
Proof.
  intros Hhmcr Hpar Hhms Hlen. unfold improvise.
  destruct (random_eval w) as (q & Hq & _ & Hq1).
  rewrite (bind_ok _ _ _ _ _ Hq).
  assert (Qltb q hmcr = true) as ->.
  { unfold Qltb. apply negb_true_iff.
    destruct (Qle_bool hmcr q) eqn:Hle; [| done].
    apply Qle_bool_iff in Hle. lra. }
  unfold randint.
  replace (Z.of_nat hms - 1 <? 0)%Z with false by (symmetry; apply Z.ltb_ge; lia).
  rewrite (bind_ok _ _ _ _ _
             (bind_ok _ _ _ _ _ (randbelow_eval _ (advance w 1)))).
  cbn [mret M_ret].
  set (idx := Z.to_nat (0 + Z.of_nat _)).
  assert (idx < length hm)%nat as Hidx.
  { unfold idx. rewrite Z.add_0_l, Nat2Z.id.
    set (n := Z.to_nat (Z.of_nat hms - 1 - 0 + 1)).
    assert (n = hms) as Hn by (unfold n; lia).
    assert (tape (advance w 1) (cursor (advance w 1)) mod N.of_nat n < N.of_nat n)%N
      by (apply N.mod_upper_bound; lia).
    lia. }
  destruct (lookup_lt_is_Some_2 hm idx Hidx) as [r Hr].
  exists r. split; [by eapply list_elem_of_lookup_2 |].
  rewrite (bind_ok _ _ _ _ _ (getitem_eval hm idx r _ Hr)).
  destruct (random_eval (advance (advance w 1) 1)) as (q' & Hq' & Hq'0 & _).
  rewrite (bind_ok _ _ _ _ _ Hq').
  assert (Qltb q' par = false) as ->.
  { unfold Qltb. apply negb_false_iff, Qle_bool_iff. lra. }
  cbn [mret M_ret]. by rewrite !advance_advance.
Qed.

(** X14: with [hmcr >= 1] and [par <= 0] nothing new is ever improvised:
    on a memory of [hms >= 1] records the new harmony is a copy of the
    harmony of one of the records, found after three draws ([rand_hmcr],
    the index, [rand_par]); no shuffle and no swap happens. *)
Theorem improvise_copies_memory (numbers : list Q) (hms : nat) (hmcr par : Q)
    (hm : list record) (w : world) :
  1 <= hmcr -> par <= 0 -> (1 <= hms)%nat -> length hm = hms ->
  exists r : record,
    r ∈ hm /\
    improvise numbers hms hmcr par hm w = (Ok (harmony r), advance w 3).
Proof. apply improvise_copy_eval. Qed.

Lemma improvise_copies_memory_witness :
  (1 <= 1 /\ 0 <= 0 /\ (1 <= 2)%nat /\
   length [Rec [1; 4; 2; 3] (Fin 0); Rec [1; 2; 3; 4] (Fin 4)] = 2%nat) /\
  exists r : record,
    r ∈ [Rec [1; 4; 2; 3] (Fin 0); Rec [1; 2; 3; 4] (Fin 4)] /\
    improvise [1; 2; 3; 4] 2 1 0
      [Rec [1; 4; 2; 3] (Fin 0); Rec [1; 2; 3; 4] (Fin 4)]
      (initial_world sample_tape) =
    (Ok (harmony r), advance (initial_world sample_tape) 3).
Proof.
  assert (1 <= 1) as H1 by apply Qle_refl.
  assert (0 <= 0) as H0 by apply Qle_refl.
  assert (1 <= 2)%nat as Hhms by lia.
  split; [by repeat split |].
  exact (improvise_copies_memory [1; 2; 3; 4] 2 1 0
           [Rec [1; 4; 2; 3] (Fin 0); Rec [1; 2; 3; 4] (Fin 4)]
           (initial_world sample_tape) H1 H0 Hhms eq_refl).
Defined.

(** ** The rounds of a run and what it prints *)

Lemma wp_bind_ok {A B : Type} (m : M A) (f : A -> M B) (w w' : world) (a : A)
    Qn Qe :
  m w = (Ok a, w') -> wp (f a) w' Qn Qe -> wp (m ≫= f) w Qn Qe.
Proof. intros Hm Hf. unfold wp. by rewrite (bind_ok _ _ _ _ _ Hm). Qed.

Lemma history_steps_snoc (R : list record -> list record -> Prop)
    (hist : list (list record)) (hm hm' : list record) :
  history_steps R hist -> last hist = Some hm -> R hm hm' ->
  history_steps R (hist ++ [hm']).
Proof.
  intros Hhist Hlast Hstep k before after Hk HSk.
  destruct (decide (S k < length hist)%nat) as [Hlt|Hge].
  - rewrite lookup_app_l in Hk by lia. rewrite lookup_app_l in HSk by lia.
    by eapply Hhist.
  - assert (S k = length hist) as Heq.
    { apply lookup_lt_Some in HSk. rewrite length_app in HSk. simpl in HSk. lia. }
    rewrite lookup_app_l in Hk by lia.
    rewrite lookup_app_r in HSk by lia.
    rewrite Heq, Nat.sub_diag in HSk. simpl in HSk.
    rewrite last_lookup, <- Heq in Hlast. simpl in Hlast.
    by simplify_eq.
Qed.

Lemma print_pairs_eval (best_pairs : list pair_info) (w : world) :
  print_pairs best_pairs w =
  (Ok tt, World (tape w) (cursor w) (stdout w ++ (PrintPair <$> best_pairs))
            (history w)).
Proof.
  revert w. induction best_pairs as [|p rest IH]; intros w.
  { simpl. rewrite app_nil_r. by destruct w. }
  cbn [print_pairs]. unfold mbind, M_bind, print at 1. rewrite IH.
  cbn [tape cursor stdout history fmap list_fmap]. by rewrite <- app_assoc.
Qed.

Section Rounds.
Variables (numbers : list Q) (t : Q) (hms : nat) (hmcr par : Q) (ni : nat).

Lemma wp_improvisation_steps (hm : list record) (iteration : nat) (w : world) :
  (1 <= hms)%nat -> loop_invariant numbers t hms hm w ->
  history_steps (memory_step numbers t hms hmcr par) (history w) ->
  wp (improvisation numbers hms hmcr par ni t hm iteration) w
    (fun hm' w' =>
       loop_invariant numbers t hms hm' w' /\
       history_steps (memory_step numbers t hms hmcr par) (history w') /\
       (exists later : list (list record), history w' = history w ++ later) /\
       exists progress : list line,
         stdout w' = stdout w ++ progress /\ Forall is_progress progress)
    (fun _ w' =>
       history_steps (memory_step numbers t hms hmcr par) (history w')).
Proof.
  intros Hhms (Hgood & Hlast & Hinv) Hsteps. unfold improvisation.
  destruct (returns_inv _ _ _
              (returns_improvise numbers t hms hmcr par hm w Hhms Hgood))
    as (h & w1 & Himp & (_ & Ho1 & Hh1) & Hperm).
  eapply wp_bind_ok; [exact Himp |].
  destruct (returns_inv _ _ _
              (returns_update_memory numbers t hms hm h w1 Hhms Hgood Hperm))
    as (hm' & w2 & Hupd & (_ & Ho2 & Hh2) & Hgood' & Hbest).
  eapply wp_bind_ok; [exact Hupd |].
  assert (memory_step numbers t hms hmcr par hm hm') as Hstep
    by (by exists h, w, w1, w2).
  assert (history w2 = history w) as Hhist by congruence.
  assert (stdout w2 = stdout w) as Hout by congruence.
  assert (history_invariant numbers t hms (history w ++ [hm'])) as Hinv'
    by (by eapply history_invariant_snoc).
  assert (history_steps (memory_step numbers t hms hmcr par)
            (history w ++ [hm'])) as Hsteps'
    by (by eapply history_steps_snoc).
  apply wp_bind, wp_observe, wp_bind. unfold report_progress.
  destruct (Nat.eqb_spec (ni / 10) 0) as [Hz|Hnz].
  { apply wp_raise. cbn [history]. by rewrite Hhist. }
  destruct ((iteration + 1) mod (ni / 10) =? 0)%nat.
  - destruct (good_memory_head _ _ _ _ Hhms Hgood') as (best & Hbest' & _).
    apply wp_bind, (wp_getitem _ _ _ _ _ _ Hbest'), wp_print, wp_ret.
    unfold loop_invariant. cbn [history stdout]. rewrite Hhist, Hout.
    split; [split; [done | split; [apply last_snoc | done]] |].
    split; [done |]. split; [by eexists |]. eexists. split; [done |].
    constructor; [by eexists _, _, _ | constructor].
  - apply wp_ret, wp_ret.
    unfold loop_invariant. cbn [history stdout]. rewrite Hhist, Hout.
    split; [split; [done | split; [apply last_snoc | done]] |].
    split; [done |]. split; [by eexists |]. exists []. by rewrite app_nil_r.
Qed.

Lemma wp_loop_steps (iterations : list nat) (hm : list record) (w : world) :
  (1 <= hms)%nat -> loop_invariant numbers t hms hm w ->
  history_steps (memory_step numbers t hms hmcr par) (history w) ->
  wp (improvisation_loop numbers hms hmcr par ni t iterations hm) w
    (fun hm' w' =>
       loop_invariant numbers t hms hm' w' /\
       history_steps (memory_step numbers t hms hmcr par) (history w') /\
       (exists later : list (list record), history w' = history w ++ later) /\
       exists progress : list line,
         stdout w' = stdout w ++ progress /\ Forall is_progress progress)
    (fun _ w' =>
       history_steps (memory_step numbers t hms hmcr par) (history w')).
Proof.
  intros Hhms. revert hm w.
  induction iterations as [|iteration rest IH]; intros hm w Hinv Hsteps.
  { apply wp_ret. split; [done |]. split; [done |].
    split; exists []; by rewrite app_nil_r. }
  cbn [improvisation_loop]. apply wp_bind.
  eapply wp_mono; [by apply wp_improvisation_steps | | done].
  intros hm' w' (Hinv' & Hsteps' & [later Hlater] & progress & Hout & Hprog).
  cbv beta.
  eapply wp_mono; [by apply IH | | done].
  intros hm'' w'' (Hinv'' & Hsteps'' & [later' Hlater'] & progress' & Hout' & Hprog').
  split; [done |]. split; [done |].
  split; [exists (later ++ later'); by rewrite Hlater', Hlater, <- app_assoc |].
  exists (progress ++ progress'). split.
  - by rewrite Hout', Hout, <- app_assoc.
  - by apply Forall_app.
Qed.
End Rounds.

Lemma wp_search_steps (numbers : list Q) (hms : nat) (hmcr par : Q) (ni : nat)
    (w : world) :
  (length numbers mod 2)%nat = 0%nat -> numbers <> [] -> history w = [] ->
  wp (harmony_search_pairing numbers hms hmcr par ni) w
    (fun res w' =>
       history_steps
         (memory_step numbers (target_average_of numbers) hms hmcr par)
         (history w') /\
       exists (hm0 : list record) (r0 : record) (progress : list line)
              (h : list Q) (f : num),
         res = (Some h, f) /\
         head (history w') = Some hm0 /\ head hm0 = Some r0 /\
         Forall is_progress progress /\
         stdout w' =
           stdout w ++
           [PrintHeader (length numbers) (length numbers / 2) (pysum numbers)
              (target_average_of numbers);
            PrintInitialBest (fitness r0)] ++
           progress ++
           [PrintFinished ni; PrintBestFitness f;
            PrintTarget (target_average_of numbers); PrintPairsHeader] ++
           (PrintPair <$> pairs_of h (target_average_of numbers)))
    (fun _ w' =>
       history_steps
         (memory_step numbers (target_average_of numbers) hms hmcr par)
         (history w')).
Proof.
  intros Heven Hne Hhist. unfold harmony_search_pairing.
  rewrite Heven. cbn [Nat.eqb negb].
  destruct (Nat.eqb_spec (length numbers) 0) as [Hz|_].
  { by destruct numbers. }
  cbv zeta. fold (target_average_of numbers).
  set (t := target_average_of numbers).
  apply wp_bind, wp_print.
  eapply wp_returns; [by apply returns_fill_memory |].
  intros hm0 w1 (_ & Ho1 & Hh1) [Hlen0 Hgood0].
  cbn [history stdout length] in *. simpl in Hlen0.
  pose proof (good_memory_sort numbers t hm0 Hgood0) as Hgood.
  rewrite Hlen0 in Hgood. set (hm := sort_by_fitness hm0) in *.
  apply wp_bind, wp_observe. rewrite Hh1, Hhist, Ho1. cbn [app].
  assert (history_invariant numbers t hms [hm]) as Hinv.
  { split; [constructor; [done | constructor] |].
    by intros [|k] before after Hk HSk. }
  assert (history_steps (memory_step numbers t hms hmcr par) [hm]) as Hsteps
    by (by intros [|k] before after Hk HSk).
  destruct (decide (hms = 0%nat)) as [->|Hhms].
  { destruct Hgood as (Hlen & _). destruct hm; [| done].
    by apply wp_bind, wp_raise. }
  assert (1 <= hms)%nat as Hhms' by lia.
  destruct (good_memory_head _ _ _ _ Hhms' Hgood) as (best & Hbest & _).
  apply wp_bind, (wp_getitem _ _ _ _ _ _ Hbest), wp_bind, wp_print, wp_bind.
  eapply wp_mono.
  { apply wp_loop_steps; [done | by split; [| split] | done]. }
  2:{ by intros e w' Hsteps'. }
  intros hm' w2
    ((Hgood' & Hlast' & Hinv') & Hsteps' & [later Hlater] & progress & Hout & Hprog).
  cbv beta. cbn [history stdout] in Hlater, Hout.
  destruct (good_memory_head _ _ _ _ Hhms' Hgood')
    as (best_solution & Hbs & [Hperm _]).
  apply wp_bind, (wp_getitem _ _ _ _ _ _ Hbs), wp_bind, wp_print, wp_bind, wp_print.
  eapply wp_bind_ok; [by apply decode_pairs_eval; rewrite (Permutation_length Hperm);
    pose proof (Nat.div_mod_eq (length numbers) 2); lia |].
  apply wp_bind, wp_print, wp_bind, wp_print.
  eapply wp_bind_ok; [apply print_pairs_eval |].
  apply wp_ret. cbn [history stdout app]. split; [done |].
  exists hm, best, progress, (harmony best_solution), (fitness best_solution).
  split; [done |]. split; [by rewrite Hlater |].
  split; [by rewrite head_lookup |]. split; [done |].
  rewrite Hout, <- !app_assoc. cbn [app]. do 4 f_equal.
  rewrite firstn_all2; [done |].
  rewrite length_drop, (Permutation_length Hperm).
  pose proof (Nat.div_mod_eq (length numbers) 2). lia.
Qed.

Lemma run_history_steps (numbers : list Q) (hms : nat) (hmcr par : Q)
    (ni : nat) (tape : nat -> N) :
  history_steps (memory_step numbers (target_average_of numbers) hms hmcr par)
    (history (run numbers hms hmcr par ni tape).2).
Proof.
  unfold run.
  destruct (decide ((length numbers mod 2)%nat = 0%nat)) as [Heven|Hodd].
  2:{ rewrite search_odd by done. by intros k ? ? ?. }
  destruct (decide (numbers = [])) as [->|Hne].
  { rewrite search_empty. by intros k ? ? ?. }
  pose proof (wp_search_steps numbers hms hmcr par ni (initial_world tape)
                Heven Hne eq_refl) as Hwp.
  unfold wp in Hwp.
  destruct (harmony_search_pairing _ _ _ _ _ _) as [[res|e] w']; simpl.
  - apply Hwp.
  - apply Hwp.
Qed.

(** A run that observes two memories has a memory of at least one record. *)
Lemma run_two_observations (numbers : list Q) (hms : nat) (hmcr par : Q)
    (ni : nat) (tape : nat -> N) :
  (2 <= length (history (run numbers hms hmcr par ni tape).2))%nat ->
  (1 <= hms)%nat.
Proof.
  unfold run.
  destruct (decide ((length numbers mod 2)%nat = 0%nat)) as [Heven|Hodd].
  2:{ rewrite search_odd by done. simpl. lia. }
  destruct (decide (numbers = [])) as [->|Hne].
  { rewrite search_empty. simpl. lia. }
  pose proof (wp_search_valid numbers hms hmcr par ni (initial_world tape)
                Heven Hne eq_refl) as Hwp.
  unfold wp in Hwp.
  destruct (harmony_search_pairing _ _ _ _ _ _) as [[res|e] w']; simpl.
  - by destruct Hwp as (Hhms & _).
  - destruct Hwp as (_ & [(_ & _ & ->)|(Hhms & _)]); [simpl; lia | done].
Qed.

(** X15: in every run no rank of the harmony memory ever gets worse: from
    one observation to the next, the record at each position has a fitness
    at most that of the record that held the position before. *)
Theorem ranks_never_worse (numbers : list Q) (hms : nat) (hmcr par : Q)
    (ni : nat) (tape : nat -> N) (k i : nat) (before after : list record)
    (r r' : record) :
  history (run numbers hms hmcr par ni tape).2 !! k = Some before ->
  history (run numbers hms hmcr par ni tape).2 !! S k = Some after ->
  before !! i = Some r -> after !! i = Some r' ->
  num_le (fitness r') (fitness r).
Proof.
  intros Hk HSk Hr Hr'.
  destruct (run_history_steps numbers hms hmcr par ni tape k before after Hk HSk)
    as (h & w0 & w1 & w2 & _ & Hupd).
  destruct (run_history_invariant numbers hms hmcr par ni tape) as [Hall _].
  pose proof (Forall_lookup_1 _ _ _ _ Hall Hk) as (_ & Hsorted & _).
  eapply update_memory_rank_le; [by apply StronglySorted_index | done..].
Qed.

Lemma ranks_never_worse_witness :
  exists (before after : list record) (r r' : record),
    (history (run [1; 2; 3; 4] 3 (9 # 10) (3 # 10) 10 sample_tape).2 !! 1%nat =
       Some before /\
     history (run [1; 2; 3; 4] 3 (9 # 10) (3 # 10) 10 sample_tape).2 !! 2%nat =
       Some after /\
     before !! 1%nat = Some r /\ after !! 1%nat = Some r') /\
    num_le (fitness r') (fitness r).
Proof.
  assert (exists before r,
    history (run [1; 2; 3; 4] 3 (9 # 10) (3 # 10) 10 sample_tape).2 !! 1%nat =
      Some before /\ before !! 1%nat = Some r) as (before & r & Hb & Hr)
    by (vm_compute; eauto).
  assert (exists after r',
    history (run [1; 2; 3; 4] 3 (9 # 10) (3 # 10) 10 sample_tape).2 !! 2%nat =
      Some after /\ after !! 1%nat = Some r') as (after & r' & Ha & Hr')
    by (vm_compute; eauto).
  exists before, after, r, r'. split; [by repeat split |].
  exact (ranks_never_worse [1; 2; 3; 4] 3 (9 # 10) (3 # 10) 10 sample_tape
           1 1 before after r r' Hb Ha Hr Hr').
Defined.

Lemma update_memory_elem (hm hm' : list record) (h : list Q) (f : num)
    (w w' : world) (r : record) :
  update_memory hm h f w = (Ok hm', w') -> r ∈ hm' ->
  r ∈ hm \/ r = Rec h f.
Proof.
  intros Hrun Hr. unfold update_memory, getlast, mbind, M_bind in Hrun.
  destruct (last hm) as [worst|]; [| done]. cbn [mret M_ret] in Hrun.
  destruct (num_ltb f (fitness worst)).
  2:{ injection Hrun as <- _. by left. }
  injection Hrun as <- _. rewrite sort_by_fitness_perm in Hr.
  apply list_elem_of_lookup in Hr as [i Hi].
  apply list_lookup_insert_Some in Hi as [(_ & <- & _)|[_ Hi]]; [by right |].
  left. by eapply list_elem_of_lookup_2.
Qed.

(** X16: with [hmcr >= 1] and [par <= 0] a run explores nothing: every
    harmony of every observed memory is the harmony of a record of the
    first observed memory, the one built at initialisation. *)
Theorem memory_only_copies (numbers : list Q) (hms : nat) (hmcr par : Q)
    (ni : nat) (tape : nat -> N) (hm0 hm : list record) (r : record) :
  1 <= hmcr -> par <= 0 ->
  head (history (run numbers hms hmcr par ni tape).2) = Some hm0 ->
  hm ∈ history (run numbers hms hmcr par ni tape).2 -> r ∈ hm ->
  exists r0 : record, r0 ∈ hm0 /\ harmony r = harmony r0.
Proof.
  intros Hhmcr Hpar Hhead Hhm. revert r.
  apply list_elem_of_lookup in Hhm as [k Hk]. revert hm Hk.
  induction k as [|k IH]; intros hm Hk r Hr.
  { rewrite head_lookup in Hhead. assert (hm = hm0) as -> by congruence.
    by exists r. }
  pose proof (lookup_lt_Some _ _ _ Hk) as Hlen.
  destruct (lookup_lt_is_Some_2
              (history (run numbers hms hmcr par ni tape).2) k) as [before Hb];
    [lia |].
  destruct (run_history_steps numbers hms hmcr par ni tape k before hm Hb Hk)
    as (h & w0 & w1 & w2 & Himp & Hupd).
  assert (1 <= hms)%nat as Hhms
    by (apply (run_two_observations numbers hms hmcr par ni tape); lia).
  destruct (run_history_invariant numbers hms hmcr par ni tape) as [Hall _].
  pose proof (Forall_lookup_1 _ _ _ _ Hall Hb) as (Hlenb & _).
  destruct (improvise_copy_eval numbers hms hmcr par before w0
              Hhmcr Hpar Hhms Hlenb) as (rb & Hrb & Hcopy).
  rewrite Hcopy in Himp. injection Himp as <- _.
  destruct (update_memory_elem _ _ _ _ _ _ _ Hupd Hr) as [Hin| ->].
  - by apply (IH before).
  - destruct (IH before Hb rb Hrb) as (r0 & Hr0 & Heq). by exists r0.
Qed.

Lemma memory_only_copies_witness :
  exists (hm0 hm : list record) (r : record),
    (1 <= 1 /\ 0 <= 0 /\
     head (history (run [1; 2; 3; 4] 3 1 0 10 sample_tape).2) = Some hm0 /\
     hm ∈ history (run [1; 2; 3; 4] 3 1 0 10 sample_tape).2 /\ r ∈ hm) /\
    exists r0 : record, r0 ∈ hm0 /\ harmony r = harmony r0.
Proof.
  assert (1 <= 1) as H1 by apply Qle_refl.
  assert (0 <= 0) as H0 by apply Qle_refl.
  assert (is_Some (head (history (run [1; 2; 3; 4] 3 1 0 10 sample_tape).2)))
    as [hm0 Hhead] by (vm_compute; eauto).
  assert (exists hm r,
    history (run [1; 2; 3; 4] 3 1 0 10 sample_tape).2 !! 10%nat = Some hm /\
    hm !! 2%nat = Some r) as (hm & r & Hhm & Hr) by (vm_compute; eauto).
  apply list_elem_of_lookup_2 in Hhm. apply list_elem_of_lookup_2 in Hr.
  exists hm0, hm, r. split; [by repeat split |].
  exact (memory_only_copies [1; 2; 3; 4] 3 1 0 10 sample_tape hm0 hm r
           H1 H0 Hhead Hhm Hr).
Defined.

(** X17: what a run that returns a harmony [h] with fitness [f] has
    printed, in order: the header with the count, the number of pairs, the
    total and the target average; the best fitness of the initial memory;
    progress lines only; the closing lines with [ni], [f] and the target;
    and one line for each pair of [h] cut two by two. *)
Theorem run_report (numbers : list Q) (hms : nat) (hmcr par : Q) (ni : nat)
    (tape : nat -> N) (h : list Q) (f : num) :
  numbers <> [] ->
  (run numbers hms hmcr par ni tape).1 = Ok (Some h, f) ->
  exists (hm0 : list record) (r0 : record) (progress : list line),
    head (history (run numbers hms hmcr par ni tape).2) = Some hm0 /\
    head hm0 = Some r0 /\ Forall is_progress progress /\
    stdout (run numbers hms hmcr par ni tape).2 =
      [PrintHeader (length numbers) (length numbers / 2) (pysum numbers)
         (target_average_of numbers);
       PrintInitialBest (fitness r0)] ++
      progress ++
      [PrintFinished ni; PrintBestFitness f;
       PrintTarget (target_average_of numbers); PrintPairsHeader] ++
      (PrintPair <$> pairs_of h (target_average_of numbers)).
Proof.
  intros Hne Hres. unfold run in *.
  destruct (decide ((length numbers mod 2)%nat = 0%nat)) as [Heven|Hodd].
  2:{ rewrite search_odd in Hres by done. done. }
  pose proof (wp_search_steps numbers hms hmcr par ni (initial_world tape)
                Heven Hne eq_refl) as Hwp.
  unfold wp in Hwp.
  destruct (harmony_search_pairing _ _ _ _ _ _) as [[res|e] w']; [| done].
  destruct Hwp as (_ & hm0 & r0 & progress & h' & f' & -> & Hhead & Hr0 & Hprog & Hout).
  simpl in Hres. injection Hres as -> ->.
  exists hm0, r0, progress. by repeat split.
Qed.

Lemma run_report_witness :
  exists (h : list Q) (f : num),
    (([1; 2; 3; 4] : list Q) <> [] /\
     (run [1; 2; 3; 4] 3 (9 # 10) (3 # 10) 10 sample_tape).1 = Ok (Some h, f)) /\
    exists (hm0 : list record) (r0 : record) (progress : list line),
      head (history (run [1; 2; 3; 4] 3 (9 # 10) (3 # 10) 10 sample_tape).2) =
        Some hm0 /\
      head hm0 = Some r0 /\ Forall is_progress progress /\
      stdout (run [1; 2; 3; 4] 3 (9 # 10) (3 # 10) 10 sample_tape).2 =
        [PrintHeader (length ([1; 2; 3; 4]%Q : list Q))
           (length ([1; 2; 3; 4]%Q : list Q) / 2) (pysum [1; 2; 3; 4])
           (target_average_of [1; 2; 3; 4]);
         PrintInitialBest (fitness r0)] ++
        progress ++
        [PrintFinished 10; PrintBestFitness f;
         PrintTarget (target_average_of [1; 2; 3; 4]); PrintPairsHeader] ++
        (PrintPair <$> pairs_of h (target_average_of [1; 2; 3; 4])).
Proof.
  assert (([1; 2; 3; 4] : list Q) <> []) as Hne by discriminate.
  assert (exists h f,
    (run [1; 2; 3; 4] 3 (9 # 10) (3 # 10) 10 sample_tape).1 = Ok (Some h, f))
    as (h & f & Hres) by (vm_compute; eauto).
  exists h, f. split; [by split |].
  exact (run_report [1; 2; 3; 4] 3 (9 # 10) (3 # 10) 10 sample_tape h f Hne Hres).
Defined.

(** ** The order inside a pair *)

Lemma Qplus_comm_eq (a b : Q) : a + b = b + a.
Proof.
  unfold Qplus. f_equal; [apply Z.add_comm | apply Pos.mul_comm].
Qed.

Lemma item_lookup (l : list Q) (i : nat) (a : Q) :
  l !! i = Some a -> item l i = a.
Proof. intros Hi. unfold item. by rewrite (nth_lookup_Some _ _ _ _ Hi). Qed.

Lemma item_insert_ne (l : list Q) (i j : nat) (a : Q) :
  i <> j -> item (<[i := a]> l) j = item l j.
Proof.
  intros Hne. unfold item. rewrite !nth_lookup.
  by rewrite list_lookup_insert_ne.
Qed.

Lemma fold_deviation_ext (h h' : list Q) (t : Q) (l : list nat) (acc : Q) :
  Forall (fun j => pair_deviation h' t j = pair_deviation h t j) l ->
  fold_left (fun acc j => acc + pair_deviation h' t j) l acc =
  fold_left (fun acc j => acc + pair_deviation h t j) l acc.
Proof.
  revert acc. induction l as [|j l IH]; intros acc Hall; [done |].
  apply Forall_cons in Hall as [Hj Hall]. simpl. rewrite Hj. by apply IH.
Qed.

(** X18: the order of the two numbers inside a pair does not count:
    exchanging the items at positions [2i] and [2i+1] of a harmony as long
    as [numbers] leaves its fitness unchanged. *)
Theorem fitness_ignores_order_in_pair (harmony numbers : list Q) (t : Q)
    (i : nat) (a b : Q) :
  length harmony = length numbers ->
  harmony !! (2 * i)%nat = Some a -> harmony !! (2 * i + 1)%nat = Some b ->
  calculate_fitness (<[(2 * i + 1)%nat := a]> (<[(2 * i)%nat := b]> harmony))
    numbers t =
  calculate_fitness harmony numbers t.
Proof.
  intros Hlen Ha Hb.
  set (h' := <[(2 * i + 1)%nat := a]> (<[(2 * i)%nat := b]> harmony)).
  assert (length h' = length harmony) as Hlen'
    by (unfold h'; by rewrite !length_insert).
  assert (harmony <> []) as Hne by (intros ->; done).
  assert (h' <> []) as Hne'
    by (intros Hnil; rewrite Hnil in Hlen'; by destruct harmony).
  rewrite !calculate_fitness_full by congruence.
  f_equal. apply fold_deviation_ext, Forall_forall. intros j _.
  unfold pair_deviation. destruct (decide (j = i)) as [->|Hj].
  - assert (item h' (2 * i) = b) as ->.
    { unfold h'. rewrite item_insert_ne by lia. apply item_lookup.
      apply list_lookup_insert_eq. by eapply lookup_lt_Some. }
    assert (item h' (2 * i + 1) = a) as ->.
    { apply item_lookup. unfold h'. apply list_lookup_insert_eq.
      rewrite length_insert. by eapply lookup_lt_Some. }
    rewrite (item_lookup _ _ _ Ha), (item_lookup _ _ _ Hb).
    by rewrite (Qplus_comm_eq b a).
  - unfold h'. by rewrite !item_insert_ne by lia.
Qed.

Lemma fitness_ignores_order_in_pair_witness :
  (length ([1; 9; 2; 7]%Q : list Q) = length ([1; 2; 7; 9]%Q : list Q) /\
   ([1; 9; 2; 7] : list Q) !! (2 * 1)%nat = Some 2 /\
   ([1; 9; 2; 7] : list Q) !! (2 * 1 + 1)%nat = Some 7) /\
  calculate_fitness (<[(2 * 1 + 1)%nat := 2]> (<[(2 * 1)%nat := 7]> [1; 9; 2; 7]))
    [1; 2; 7; 9] 5 =
  calculate_fitness [1; 9; 2; 7] [1; 2; 7; 9] 5.
Proof.
  split; [by repeat split |].
  exact (fitness_ignores_order_in_pair [1; 9; 2; 7] [1; 2; 7; 9] 5 1 2 7
           eq_refl eq_refl eq_refl).
Defined.

(** ** The driver *)







(** ** Reach of the pitch adjustment, stability of the best record *)

(** X20: the pitch adjustment can exchange any two distinct positions: for
    indices [i <> j] of the harmony there are two cells on which
    [apply_pitch_adjustment] returns the harmony with exactly the items at
    [i] and [j] exchanged. *)
Theorem pitch_adjustment_reaches (harmony : list Q) (i j : nat) (a b : Q) :
  i <> j -> harmony !! i = Some b -> harmony !! j = Some a ->
  exists c1 c2 : N,
    forall (tp : nat -> N) (c : nat) (out : list line)
           (hist : list (list record)),
      tp c = c1 -> tp (S c) = c2 ->
      apply_pitch_adjustment harmony (World tp c out hist) =
      (Ok (<[j := b]> (<[i := a]> harmony)), World tp (S (S c)) out hist).
Proof.
  intros Hne Hb Ha.
  pose proof (lookup_lt_Some _ _ _ Hb) as Hi.
  pose proof (lookup_lt_Some _ _ _ Ha) as Hj.
  exists (N.of_nat i),
    (N.of_nat (if (j =? length harmony - 1)%nat then i else j)).
  intros tp c out hist Hc HSc. unfold apply_pitch_adjustment.
  replace (length harmony <? 2)%nat with false
    by (symmetry; apply Nat.ltb_ge; lia).
  rewrite (bind_ok _ _ _ _ _
             (sample2_complete (length harmony) i j tp c out hist Hi Hj Hne Hc HSc)).
  by apply swap_items_eval.
Qed.

Lemma pitch_adjustment_reaches_witness :
  (0%nat <> 3%nat /\ ([1; 2; 3; 4] : list Q) !! 0%nat = Some 1 /\
   ([1; 2; 3; 4] : list Q) !! 3%nat = Some 4) /\
  exists c1 c2 : N,
    forall (tp : nat -> N) (c : nat) (out : list line)
           (hist : list (list record)),
      tp c = c1 -> tp (S c) = c2 ->
      apply_pitch_adjustment [1; 2; 3; 4] (World tp c out hist) =
      (Ok (<[3%nat := 1]> (<[0%nat := 4]> [1; 2; 3; 4])),
       World tp (S (S c)) out hist).
Proof.
  assert (0%nat <> 3%nat) as Hne by lia.
  split; [by repeat split |].
  exact (pitch_adjustment_reaches [1; 2; 3; 4] 0 3 4 1 Hne eq_refl eq_refl).
Defined.

Lemma insert_by_fitness_head (r : record) (l : list record) :
  Forall (fun x => num_le (fitness r) (fitness x)) l ->
  insert_by_fitness r l = r :: l.
Proof.
  intros Hall. destruct l as [|x l]; [done |].
  apply Forall_cons in Hall as [Hx _]. simpl.
  by rewrite (num_le_ltb_false _ _ Hx).
Qed.

(** X21: the best record is displaced by a strictly better candidate only:
    when the candidate's fitness is not below that of the first record of a
    sorted memory, also when it ties with it, the first record of the
    updated memory is the same record. *)
Theorem best_record_stable (hm hm' : list record) (r0 : record) (h : list Q)
    (f : num) (w w' : world) :
  sorted_by_fitness hm -> head hm = Some r0 -> num_le (fitness r0) f ->
  update_memory hm h f w = (Ok hm', w') ->
  head hm' = Some r0.
Proof.
  intros Hsorted Hhead Hle Hrun.
  unfold update_memory, getlast, mbind, M_bind in Hrun.
  destruct (last hm) as [worst|] eqn:Hlast; [| done]. cbn [mret M_ret] in Hrun.
  destruct (num_ltb f (fitness worst)) eqn:Hlt.
  2:{ by injection Hrun as <- _. }
  injection Hrun as <- _.
  destruct hm as [|x [|y rest]]; [done | |].
  - (* one record: it is the worst, and the candidate is not below it *)
    simpl in Hhead, Hlast. simplify_eq.
    apply num_ltb_strict in Hlt. done.
  - simpl in Hhead. simplify_eq.
    replace (length (r0 :: y :: rest) - 1)%nat with (S (length rest))
      by (simpl; lia).
    set (l1 := <[length rest := Rec h f]> (y :: rest)).
    change (<[S (length rest) := Rec h f]> (r0 :: y :: rest)) with (r0 :: l1).
    change (sort_by_fitness (r0 :: l1))
      with (insert_by_fitness r0 (sort_by_fitness l1)).
    rewrite insert_by_fitness_head; [done |].
    rewrite sort_by_fitness_perm. unfold l1.
    apply Forall_insert; [| done].
    apply Forall_lookup. intros k z Hk.
    apply (Hsorted 0%nat (S k) r0 z); [lia | done | done].
Qed.

Lemma best_record_stable_witness :
  (sorted_by_fitness [Rec [1; 4; 2; 3] (Fin 0); Rec [1; 2; 3; 4] (Fin 4)] /\
   head [Rec [1; 4; 2; 3] (Fin 0); Rec [1; 2; 3; 4] (Fin 4)] =
     Some (Rec [1; 4; 2; 3] (Fin 0)) /\
   num_le (fitness (Rec [1; 4; 2; 3] (Fin 0))) (Fin 0) /\
   update_memory [Rec [1; 4; 2; 3] (Fin 0); Rec [1; 2; 3; 4] (Fin 4)]
     [4; 1; 3; 2] (Fin 0) (initial_world sample_tape) =
     (Ok [Rec [1; 4; 2; 3] (Fin 0); Rec [4; 1; 3; 2] (Fin 0)],
      initial_world sample_tape)) /\
  head [Rec [1; 4; 2; 3] (Fin 0); Rec [4; 1; 3; 2] (Fin 0)] =
    Some (Rec [1; 4; 2; 3] (Fin 0)).
Proof.
  assert (sorted_by_fitness [Rec [1; 4; 2; 3] (Fin 0); Rec [1; 2; 3; 4] (Fin 4)])
    as Hsorted.
  { apply StronglySorted_index. repeat constructor. by vm_compute. }
  assert (num_le (fitness (Rec [1; 4; 2; 3] (Fin 0))) (Fin 0)) as Hle
    by apply Qle_refl.
  split; [by repeat split |].
  exact (best_record_stable _ _ (Rec [1; 4; 2; 3] (Fin 0)) [4; 1; 3; 2] (Fin 0)
           (initial_world sample_tape) (initial_world sample_tape)
           Hsorted eq_refl Hle eq_refl).
Defined.
